(** * GEMCODEX: the web client, its service worker, and the migration and
      notification contracts

    The web client's code (service worker, router, parts query) is embedded
    from the TypeScript and JavaScript sources.  The migration script and the
    realtime backend are not part of the sources at hand; their behaviour is
    modelled from the specification, and every such definition says so. *)

From stdpp Require Import base strings list gmap.
From Stdlib Require Import ZArith Ascii.

Open Scope string_scope.
Open Scope list_scope.
Open Scope nat_scope.

(** ** The service worker (service-worker.js) *)

Module ServiceWorker.

(** A request as the Cache API sees it: a method and a URL. *)
Record Request := { method : string; url : string }.

Record Response := { status : nat; body : string }.

#[global] Instance Request_eq_dec : EqDecision Request.
Proof. solve_decision. Defined.

#[global] Instance Response_eq_dec : EqDecision Response.
Proof. solve_decision. Defined.

(** [new Request(url)]: a URL string names a GET request. *)
Definition GET (u : string) : Request := {| method := "GET"; url := u |}.

(** [response.ok]: the status is in the range 200-299. *)
Definition ok (r : Response) : bool :=
  bool_decide (200 ≤ status r)%nat && bool_decide (status r ≤ 299)%nat.

(** What [cache.addAll] accepts: a response whose status is ok and is not
    206 (partial content). *)
Definition storable (r : Response) : bool :=
  ok r && negb (bool_decide (status r = 206)).

(** A URL without its fragment: everything before the first "#".  The Cache
    API leaves the fragment out when it compares URLs. *)
Fixpoint strip_fragment (u : string) : string :=
  match u with
  | EmptyString => EmptyString
  | String c rest =>
      if Ascii.eqb c "#"%char then EmptyString else String c (strip_fragment rest)
  end.

(** One cache maps request URLs to stored responses.  Since two URLs that
    differ in the fragment only are the same entry, a cache is keyed by URLs
    without fragment.  The cache storage keeps its caches in creation order,
    which is the order [caches.match] searches them in. *)
Abbreviation Cache := (gmap string Response).
Definition CacheStorage := list (string * Cache).

(** The network: [None] is a network error (the promise of [fetch] rejects). *)
Definition Network := Request → option Response.

(** The calls a handler makes on the browser, in the order it makes them. *)
Inductive Call :=
| CachesOpen (name : string)
| CacheAddAll (name : string) (urls : list string)
| CachesMatch (request : Request)
| Fetch (request : Request).

#[global] Instance Call_eq_dec : EqDecision Call.
Proof. solve_decision. Defined.

(** A promise run against the cache storage: its settlement ([None] when it
    rejects), the storage it leaves, and the calls it made. *)
Definition Promise (A : Type) : Type :=
  CacheStorage → option A * CacheStorage * list Call.

Definition resolve {A} (a : A) : Promise A := λ s, (Some a, s, []).

(** [p.then(f)] *)
Definition then_ {A B} (p : Promise A) (f : A → Promise B) : Promise B :=
  λ s, match p s with
       | (Some a, s1, log1) =>
           match f a s1 with (b, s2, log2) => (b, s2, log1 ++ log2) end
       | (None, s1, log1) => (None, s1, log1)
       end.

Fixpoint find_cache (s : CacheStorage) (name : string) : option Cache :=
  match s with
  | [] => None
  | c :: rest => if decide (c.1 = name) then Some c.2 else find_cache rest name
  end.

(** What the cache called [name] holds for the URL [u], if anything. *)
Definition cached (s : CacheStorage) (name u : string) : option Response :=
  find_cache s name ≫= (λ c : Cache, c !! u).

Definition update_cache (name : string) (f : Cache → Cache) (s : CacheStorage)
  : CacheStorage :=
  (λ c : string * Cache, if decide (c.1 = name) then (c.1, f c.2) else c) <$> s.

(** [caches.open(name)]: the cache of that name, created empty when there is
    none.  The handle it resolves to is the cache's name. *)
Definition caches_open (name : string) : Promise string :=
  λ s, (Some name,
        match find_cache s name with Some _ => s | None => s ++ [(name, ∅)] end,
        [CachesOpen name]).

(** Each response is put under its URL, replacing what was there. *)
Definition put_all (entries : list (string * Response)) (c : Cache) : Cache :=
  foldl (λ (acc : Cache) (e : string * Response), <[strip_fragment e.1 := e.2]> acc)
        c entries.

(** The responses to all of [urls] when every one of them arrived and is
    storable, [None] as soon as one is not. *)
Fixpoint fetch_all (net : Network) (urls : list string)
  : option (list (string * Response)) :=
  match urls with
  | [] => Some []
  | u :: rest =>
      match net (GET u), fetch_all net rest with
      | Some r, Some rs => if storable r then Some ((u, r) :: rs) else None
      | _, _ => None
      end
  end.

(** [cache.addAll(urls)]: every URL is requested; the responses are stored
    only when all of them arrived with an ok status other than 206, otherwise
    the promise rejects and the cache is left as it was. *)
Definition cache_addAll (net : Network) (cache : string) (urls : list string)
  : Promise unit :=
  λ s, let log := CacheAddAll cache urls :: (Fetch ∘ GET <$> urls) in
       match fetch_all net urls with
       | Some entries => (Some (), update_cache cache (put_all entries) s, log)
       | None => (None, s, log)
       end.

(** [cache.match(request)]: only GET requests match, by URL with the
    fragment left out. *)
Definition cache_match (request : Request) (c : Cache) : option Response :=
  if decide (method request = "GET")
  then c !! strip_fragment (url request) else None.

(** The first response some cache holds for the request, in creation order. *)
Fixpoint first_match (request : Request) (s : CacheStorage) : option Response :=
  match s with
  | [] => None
  | c :: rest =>
      match cache_match request c.2 with
      | Some r => Some r
      | None => first_match request rest
      end
  end.

(** [caches.match(request)] resolves to the response or to [undefined]. *)
Definition caches_match (request : Request) : Promise (option Response) :=
  λ s, (Some (first_match request s), s, [CachesMatch request]).

(** [fetch(request)] *)
Definition fetch (net : Network) (request : Request) : Promise Response :=
  λ s, (net request, s, [Fetch request]).

Definition CACHE_NAME : string := "static-v1".
Definition PRECACHE : list string := ["/"; "/manifest.webmanifest"].

(** The promise the install listener hands to [event.waitUntil]. *)
Definition install_handler (net : Network) : Promise unit :=
  then_ (caches_open CACHE_NAME) (λ cache, cache_addAll net cache PRECACHE).

(** The promise the fetch listener hands to [event.respondWith].  A response
    object is truthy and [undefined] is not, so [response || fetch(...)] is a
    case distinction on whether a response was found. *)
Definition fetch_handler (net : Network) (request : Request) : Promise Response :=
  then_ (caches_match request)
    (λ response, match response with
                 | Some r => resolve r
                 | None => fetch net request
                 end).

(** A network that answers every request with status 200 and the URL as the
    body, one that is down, and a storage whose cache already holds "/". *)
Definition online : Network := λ r, Some {| status := 200; body := url r |}.
Definition offline : Network := λ _, None.

(** A network that answers the request for "/" with partial content. *)
Definition partial_root : Network :=
  λ r, Some {| status := if decide (url r = "/") then 206 else 200; body := url r |}.

Definition installed : CacheStorage :=
  [ ("static-v1", {[ "/" := {| status := 200; body := "<html>" |} ]}) ].

End ServiceWorker.

(** ** The route table (router.tsx) and the navigation bar (AppLayout) *)

Module Router.

(** The components the route table mounts. *)
Inductive Element := AppLayout | DashboardPage | PartsPage | TasksPage.

#[global] Instance Element_eq_dec : EqDecision Element.
Proof. solve_decision. Defined.

(** A route object as [createBrowserRouter] takes it: an optional [path], the
    [index] flag, the [element] and the [children]. *)
#[local] Unset Elimination Schemes.
Inductive RouteObject :=
| Route (path : option string) (index : bool) (element : Element)
        (children : list RouteObject).
#[local] Set Elimination Schemes.

Definition path (r : RouteObject) : option string :=
  match r with Route p _ _ _ => p end.
Definition index (r : RouteObject) : bool :=
  match r with Route _ i _ _ => i end.
Definition element (r : RouteObject) : Element :=
  match r with Route _ _ e _ => e end.
Definition children (r : RouteObject) : list RouteObject :=
  match r with Route _ _ _ c => c end.

Definition router : list RouteObject :=
  [ Route (Some "/") false AppLayout
      [ Route None true DashboardPage [];
        Route (Some "parts") false PartsPage [];
        Route (Some "tasks") false TasksPage [] ] ].

(** Where a page sits: the path segments from the root down to it, whether
    it is an index route, the layouts around it, and the page itself. *)
Record Branch := {
  segments : list string;
  is_index : bool;
  layouts : list Element;
  page : Element
}.

#[global] Instance Branch_eq_dec : EqDecision Branch.
Proof. solve_decision. Defined.

Definition own_segment (r : RouteObject) : list string :=
  match path r with Some p => [p] | None => [] end.

(** The leaves of the route tree, each with the path and the layouts it
    inherits from its ancestors. *)
Fixpoint branches_of (prefix : list string) (outer : list Element)
    (r : RouteObject) : list Branch :=
  match r with
  | Route _ i e [] =>
      [ {| segments := prefix ++ own_segment r; is_index := i;
           layouts := outer; page := e |} ]
  | Route _ _ e cs =>
      flat_map (branches_of (prefix ++ own_segment r) (outer ++ [e])) cs
  end.

Definition branches (routes : list RouteObject) : list Branch :=
  flat_map (branches_of [] []) routes.

(** Joining path segments with a slash and collapsing runs of slashes, as the
    router does to build a full path. *)
Fixpoint collapse_slashes (after_slash : bool) (s : string) : string :=
  match s with
  | EmptyString => EmptyString
  | String c rest =>
      if Ascii.eqb c "/"%char
      then if after_slash then collapse_slashes true rest
           else String c (collapse_slashes true rest)
      else String c (collapse_slashes false rest)
  end.

Definition join_paths (segs : list string) : string :=
  collapse_slashes false (String.concat "/" segs).

(** The [value]s of the three [BottomNavigationAction]s, which are what the
    layout passes to [navigate]. *)
Definition NAV_VALUES : list string := ["/"; "/parts"; "/tasks"].

End Router.

(** ** The parts query (services/parts.ts) *)

Module PartsService.

(** TypeScript's [number] is used here for identifiers, quantities and page
    counts only; it is embedded as an integer. *)
Record Part := {
  id : Z;
  name : string;
  sku : string;
  qty : Z;
  min_qty : Z
}.

Record PaginatedResponse (T : Type) := {
  items : list T;
  total : Z;
  page : Z;
  page_size : Z
}.
Arguments items {T} _.
Arguments total {T} _.
Arguments page {T} _.
Arguments page_size {T} _.

(** The interface declaration as data: each member and its type. *)
Inductive TsType := TsNumber | TsString | TsArray (t : TsType) | TsParam (x : string).

Definition PaginatedResponse_members : list (string * TsType) :=
  [ ("items", TsArray (TsParam "T"));
    ("total", TsNumber);
    ("page", TsNumber);
    ("page_size", TsNumber) ].

(** What [axios.get(url, { params })] sends. *)
Record HttpRequest := {
  http_method : string;
  http_url : string;
  http_params : list (string * Z)
}.

#[global] Instance HttpRequest_eq_dec : EqDecision HttpRequest.
Proof. solve_decision. Defined.

(** The other end of the wire: the body it answers with, or [None] when the
    request fails and the promise rejects. *)
Definition Server := HttpRequest → option (PaginatedResponse Part).

Record AxiosResponse (D : Type) := { data : D }.
Arguments data {D} _.

(** An asynchronous computation against the server: the requests it sent and
    what it settled to. *)
Definition Async (A : Type) : Type := Server → list HttpRequest * option A.

Definition axios_get (u : string) (params : list (string * Z))
  : Async (AxiosResponse (PaginatedResponse Part)) :=
  λ server,
    let request := {| http_method := "GET"; http_url := u; http_params := params |} in
    ([request], (λ d, {| data := d |}) <$> server request).

(** The [queryFn] of [useParts]: await the response, return its [data]. *)
Definition queryFn : Async (PaginatedResponse Part) :=
  λ server,
    match axios_get "/api/parts" [("page", 1%Z); ("page_size", 50%Z)] server with
    | (sent, response) => (sent, data <$> response)
    end.

(** The options [useParts] gives to [useQuery]. *)
Record QueryOptions (A : Type) := {
  queryKey : list string;
  query_fn : Async A
}.
Arguments queryKey {A} _.
Arguments query_fn {A} _.

Definition useParts : QueryOptions (PaginatedResponse Part) :=
  {| queryKey := ["parts"]; query_fn := queryFn |}.

(** The query function is run when the page mounts and again on every
    [refetch()]; [servers] gives the server as it is at each of these runs.
    The result lists all requests sent and the data of the last run. *)
Fixpoint run_query {A} (q : QueryOptions A) (servers : list Server)
  : list HttpRequest * option A :=
  match servers with
  | [] => ([], None)
  | server :: later =>
      match query_fn q server, later with
      | (sent, result), [] => (sent, result)
      | (sent, _), _ :: _ =>
          match run_query q later with (sent', result') => (sent ++ sent', result') end
      end
  end.

Definition param (k : string) (r : HttpRequest) : option Z :=
  snd <$> head (filter (λ p, p.1 = k) (http_params r)).

(** Modelled from the spec: the backend's paginated list endpoint, which is
    not among the sources.  It answers with the requested page of its parts
    and the total number of parts (request and response shape: page,
    page_size, items, total). *)
Definition backend (db : list Part) : Server :=
  λ r, match param "page" r, param "page_size" r with
       | Some p, Some n =>
           if bool_decide (1 ≤ p)%Z && bool_decide (1 ≤ n)%Z
           then Some {| items := take (Z.to_nat n) (drop (Z.to_nat ((p - 1) * n)) db);
                        total := Z.of_nat (length db);
                        page := p;
                        page_size := n |}
           else None
       | _, _ => None
       end.

(** The one request the parts query sends. *)
Definition first_page : HttpRequest :=
  {| http_method := "GET"; http_url := "/api/parts";
     http_params := [("page", 1%Z); ("page_size", 50%Z)] |}.

(** A server honours the page size when it never answers with more items than
    the request's [page_size] asks for. *)
Definition honours_page_size (server : Server) : Prop :=
  ∀ r d n, server r = Some d → param "page_size" r = Some n →
           (Z.of_nat (length (items d)) ≤ n)%Z.

Definition sixty_parts : list Part :=
  (λ i, {| id := Z.of_nat i; name := "part"; sku := "SKU";
           qty := 1; min_qty := 0 |}) <$> seq 1 60.

End PartsService.

(** ** The migration script (migration/transfer.py)

    The script itself is not among the sources: only the migration guide that
    describes how it is invoked is.  Everything in this module is modelled
    from the specification's sections on the Row Mapper and the Transfer
    Engine. *)

Module Transfer.

(** Modelled from the spec: the validation status of a TransferRecord
    (valid / warned / rejected); the script that computes it is missing. *)
Inductive Status := Valid | Warned | Rejected.

#[global] Instance Status_eq_dec : EqDecision Status.
Proof. solve_decision. Defined.

(** Column names with their values; [None] is SQL's null. *)
Abbreviation Payload := (list (string * option string)).

(** Modelled from the spec: a row as the Legacy Store Reader hands it over,
    with the legacy primary key that is its natural identity. *)
Record SourceRow := {
  primary_key : option Z;
  columns : Payload
}.

(** Modelled from the spec: the TransferRecord (source natural key, mapped
    destination payload, validation status). *)
Record TransferRecord := {
  natural_key : option Z;
  payload : Payload;
  status : Status
}.

#[global] Instance TransferRecord_eq_dec : EqDecision TransferRecord.
Proof. solve_decision. Defined.

(** Modelled from the spec: the per-table rules of the Row Mapper, which the
    specification names but does not spell out: the renames, coercions and
    default-filling that turn legacy columns into destination columns, and the
    soft checks (required-field presence, plausibility of foreign-key-shaped
    values). *)
Record MappingRules := {
  map_columns : string → Payload → Payload;
  soft_issue : string → SourceRow → bool
}.

(** Modelled from the spec: the Row Mapper's [map(tableName, sourceRow)].
    A row without its primary key cannot be mapped and is rejected; a soft
    issue makes the record warned. *)
Definition map_row (rules : MappingRules) (tableName : string) (sourceRow : SourceRow)
  : TransferRecord :=
  {| natural_key := primary_key sourceRow;
     payload := map_columns rules tableName (columns sourceRow);
     status := match primary_key sourceRow with
               | None => Rejected
               | Some _ => if soft_issue rules tableName sourceRow then Warned else Valid
               end |}.

(** Modelled from the spec: the TransferUnit (table name, destination table
    identity, dependency predecessors).  Its source rows are read from the
    legacy store when the unit starts. *)
Record TransferUnit := {
  table : string;
  dest_table : string;
  predecessors : list string
}.

(** Modelled from the spec: the readable handle to the legacy store, read one
    table at a time; [None] is a SourceReadFault. *)
Abbreviation SourceHandle := (string → option (list SourceRow)).

Abbreviation DestRow := (option Z * Payload)%type.

(** Modelled from the spec: the writable handle to the destination store: the
    rows of each table, and how many more statements the connection carries
    before it is lost ([None]: it is never lost). *)
Record DestinationHandle := {
  tables : gmap string (list DestRow);
  link : option nat
}.

Definition rows_of (ts : gmap string (list DestRow)) (t : string) : list DestRow :=
  default [] (ts !! t).

Definition row_count (d : DestinationHandle) (t : string) : nat :=
  length (rows_of (tables d) t).

(** Modelled from the spec: the constraints the destination enforces on an
    insert: given the tables as they are, is the row admitted into table [t]? *)
Abbreviation Constraints := (gmap string (list DestRow) → string → DestRow → bool).

(** A destination that enforces nothing. *)
Definition unconstrained : Constraints := λ _ _ _, true.

(** Modelled from the spec: a destination whose uniqueness constraint turns a
    row away when its table already holds a row with the same natural key. *)
Definition unique_natural_key : Constraints :=
  λ ts t row, bool_decide (row.1 ∉ (rows_of ts t).*1).

(** Modelled from the spec: what the destination answers to an insert: the
    row is written, or the write faults on a constraint, or on the loss of
    the connection. *)
Inductive WriteOutcome := Written | ConstraintViolation | ConnectivityLost.

#[global] Instance WriteOutcome_eq_dec : EqDecision WriteOutcome.
Proof. solve_decision. Defined.

(** Modelled from the spec: one insert against the destination store.  A
    constraint violation is a per-row DestinationWriteFault, the loss of the
    connection a fatal one. *)
Definition insert_row (admits : Constraints) (t : string) (row : DestRow)
    (d : DestinationHandle) : WriteOutcome * DestinationHandle :=
  match link d with
  | Some 0 => (ConnectivityLost, d)
  | _ =>
      if admits (tables d) t row
      then (Written,
            {| tables := <[t := rows_of (tables d) t ++ [row]]> (tables d);
               link := pred <$> link d |})
      else (ConstraintViolation,
            {| tables := tables d; link := pred <$> link d |})
  end.

(** Modelled from the spec: the three counts of one report section. *)
Record Counts := {
  inserted : nat;
  warned : nat;
  rejected : nat
}.

#[global] Instance Counts_eq_dec : EqDecision Counts.
Proof. solve_decision. Defined.

Definition tally (i w r : nat) : Counts :=
  {| inserted := i; warned := w; rejected := r |}.

Definition add_counts (a b : Counts) : Counts :=
  tally (inserted a + inserted b) (warned a + warned b) (rejected a + rejected b).

(** Modelled from the spec: what the engine does, in the order it does it:
    the start and completion of a unit, the read of its table, the mapping of
    a row, the insert issued for a record, the writing of the report. *)
Inductive Event :=
| UnitStarted (t : string)
| TableRead (t : string) (rows : nat)
| ReadFailed (t : string)
| RowMapped (t : string) (r : TransferRecord)
| InsertIssued (t : string) (r : TransferRecord) (o : WriteOutcome)
| UnitCompleted (t : string)
| ReportWritten.

#[global] Instance Event_eq_dec : EqDecision Event.
Proof. solve_decision. Defined.

(** Modelled from the spec: the state of a transfer after some of its steps:
    whether a fatal fault stopped it, the destination as it is, the counts
    and the events so far. *)
Record Progress := {
  fatal : bool;
  dest : DestinationHandle;
  counts : Counts;
  events : list Event
}.

Definition after (c : Counts) (es : list Event) (p : Progress) : Progress :=
  {| fatal := fatal p; dest := dest p;
     counts := add_counts c (counts p); events := es ++ events p |}.

Definition warning_of (s : Status) : nat :=
  match s with Warned => 1 | _ => 0 end.

(** Modelled from the spec: the engine's loop over the rows of one table.
    Each row is mapped and validated; a rejected record is counted and goes no
    further; any other record is written unless the run is a dry run, and the
    destination's answer decides whether it counts as inserted or rejected.
    Losing the connection stops the transfer. *)
Fixpoint transfer_rows (rules : MappingRules) (admits : Constraints) (dryRun : bool)
    (t dt : string) (rows : list SourceRow) (d : DestinationHandle) : Progress :=
  match rows with
  | [] => {| fatal := false; dest := d; counts := tally 0 0 0; events := [] |}
  | row :: rest =>
      let r := map_row rules t row in
      let w := warning_of (status r) in
      match status r with
      | Rejected =>
          after (tally 0 0 1) [RowMapped t r]
            (transfer_rows rules admits dryRun t dt rest d)
      | _ =>
          if dryRun
          then after (tally 0 w 0) [RowMapped t r]
                 (transfer_rows rules admits dryRun t dt rest d)
          else
            match insert_row admits dt (natural_key r, payload r) d with
            | (Written, d') =>
                after (tally 1 w 0) [RowMapped t r; InsertIssued t r Written]
                  (transfer_rows rules admits dryRun t dt rest d')
            | (ConstraintViolation, d') =>
                after (tally 0 w 1) [RowMapped t r; InsertIssued t r ConstraintViolation]
                  (transfer_rows rules admits dryRun t dt rest d')
            | (ConnectivityLost, d') =>
                {| fatal := true; dest := d'; counts := tally 0 w 0;
                   events := [RowMapped t r; InsertIssued t r ConnectivityLost] |}
            end
      end
  end.

(** Modelled from the spec: the transfer of one unit: read the table (a read
    fault is fatal), then transfer its rows. *)
Definition transfer_unit (rules : MappingRules) (admits : Constraints) (dryRun : bool)
    (source : SourceHandle) (u : TransferUnit) (d : DestinationHandle) : Progress :=
  match source (table u) with
  | None =>
      {| fatal := true; dest := d; counts := tally 0 0 0;
         events := [UnitStarted (table u); ReadFailed (table u)] |}
  | Some rows =>
      let p := transfer_rows rules admits dryRun (table u) (dest_table u) rows d in
      {| fatal := fatal p; dest := dest p; counts := counts p;
         events := UnitStarted (table u) :: TableRead (table u) (length rows)
                   :: events p ++ (if fatal p then [] else [UnitCompleted (table u)]) |}
  end.

(** Modelled from the spec: the TransferReport (one section of counts per
    table, in transfer order) and whether a fatal fault cut the run short. *)
Record TransferReport := {
  sections : list (string * Counts);
  aborted : bool
}.

(** What a run leaves behind: its report, the destination, and the events in
    the order they happened. *)
Record Outcome := {
  report : TransferReport;
  destination : DestinationHandle;
  trace : list Event
}.

(** Modelled from the spec: the units are transferred one after the other in
    plan order; a fatal fault stops the run at once with a partial report. *)
Fixpoint transfer_units (rules : MappingRules) (admits : Constraints) (dryRun : bool)
    (source : SourceHandle) (plan : list TransferUnit) (d : DestinationHandle)
  : Outcome :=
  match plan with
  | [] => {| report := {| sections := []; aborted := false |};
             destination := d; trace := [] |}
  | u :: rest =>
      let p := transfer_unit rules admits dryRun source u d in
      if fatal p
      then {| report := {| sections := [(table u, counts p)]; aborted := true |};
              destination := dest p; trace := events p |}
      else
        let o := transfer_units rules admits dryRun source rest (dest p) in
        {| report := {| sections := (table u, counts p) :: sections (report o);
                        aborted := aborted (report o) |};
           destination := destination o;
           trace := events p ++ trace o |}
  end.

(** Modelled from the spec: the options of a run.  [verbose] only changes what
    is printed on the console. *)
Record Options := {
  dryRun : bool;
  verbose : bool
}.

(** Modelled from the spec: a run over a transfer plan; the report artifact is
    written once, after the last table or after the fault that ends the run. *)
Definition run_plan (rules : MappingRules) (admits : Constraints)
    (plan : list TransferUnit) (source : SourceHandle)
    (destination : DestinationHandle) (options : Options) : Outcome :=
  let o := transfer_units rules admits (dryRun options) source plan destination in
  {| report := report o; destination := Transfer.destination o;
     trace := trace o ++ [ReportWritten] |}.

Definition unit_for (t : string) (preds : list string) : TransferUnit :=
  {| table := t; dest_table := t; predecessors := preds |}.

(** Modelled from the spec: the fixed table order (categories, then parts and
    equipment, analog groups, counterparties, orders and order items, tasks
    and task parts, knife tracking and its logs, settings), with the table
    names of the domain model and the predecessors its relationships give. *)
Definition TRANSFER_PLAN : list TransferUnit :=
  [ unit_for "part_categories" [];
    unit_for "equipment_categories" [];
    unit_for "parts" ["part_categories"];
    unit_for "equipment" ["equipment_categories"];
    unit_for "equipment_parts" ["parts"; "equipment"];
    unit_for "part_analog_groups" [];
    unit_for "counterparties" [];
    unit_for "orders" ["counterparties"];
    unit_for "order_items" ["orders"; "parts"];
    unit_for "tasks" [];
    unit_for "task_parts" ["tasks"; "parts"];
    unit_for "knife_tracking" ["parts"];
    unit_for "knife_status_log" ["knife_tracking"];
    unit_for "knife_sharpen_log" ["knife_tracking"];
    unit_for "app_settings" [] ].

(** Modelled from the spec: [run(sourceHandle, destinationHandle, options)]. *)
Definition run (rules : MappingRules) (admits : Constraints) :=
  run_plan rules admits TRANSFER_PLAN.

(** Modelled from the spec: a plan respects the dependencies when every unit
    comes after all of its predecessors and no table is transferred twice.
    [done] lists the tables of the units that come before. *)
Fixpoint respects_from (done : list string) (plan : list TransferUnit) : bool :=
  match plan with
  | [] => true
  | u :: rest =>
      forallb (λ p, bool_decide (p ∈ done)) (predecessors u)
      && bool_decide (table u ∉ done)
      && respects_from (table u :: done) rest
  end.

Definition dependency_respecting (plan : list TransferUnit) : bool :=
  respects_from [] plan.

(** The destination rows of the records of a table that the mapper did not
    reject, in row order. *)
Definition writable (rules : MappingRules) (t : string) (rows : list SourceRow)
  : list DestRow :=
  (λ r, (natural_key r, payload r))
    <$> filter (λ r, status r ≠ Rejected) (map_row rules t <$> rows).

(** The rows a run writes into the destination table [dt] when every write
    is taken: the writable rows of every unit aimed at [dt], in plan order. *)
Definition written_into (rules : MappingRules) (plan : list TransferUnit)
    (rows : string → list SourceRow) (dt : string) : list DestRow :=
  flat_map (λ u, if decide (dest_table u = dt)
                 then writable rules (table u) (rows (table u)) else [])
           plan.

(** What the mapper alone decides about the rows of a table: how many are
    warned and how many are rejected. *)
Definition mapping_counts (rules : MappingRules) (t : string) (rows : list SourceRow)
  : Counts :=
  let rs := map_row rules t <$> rows in
  tally 0 (length (filter (λ r, status r = Warned) rs))
          (length (filter (λ r, status r = Rejected) rs)).

(** The table an event belongs to; the report artifact belongs to none. *)
Definition event_table (e : Event) : option string :=
  match e with
  | UnitStarted t | TableRead t _ | ReadFailed t
  | RowMapped t _ | InsertIssued t _ _ | UnitCompleted t => Some t
  | ReportWritten => None
  end.

Definition is_insert (e : Event) : bool :=
  match e with InsertIssued _ _ _ => true | _ => false end.

(** What a dry run reports: per table the mapper's counts, up to and
    including the first table that cannot be read. *)
Fixpoint preview (rules : MappingRules) (source : SourceHandle)
    (plan : list TransferUnit) : TransferReport :=
  match plan with
  | [] => {| sections := []; aborted := false |}
  | u :: rest =>
      match source (table u) with
      | None => {| sections := [(table u, tally 0 0 0)]; aborted := true |}
      | Some rows =>
          {| sections := (table u, mapping_counts rules (table u) rows)
                         :: sections (preview rules source rest);
             aborted := aborted (preview rules source rest) |}
      end
  end.

(** Two report sections agree on what the mapper found: same table, same
    warnings, and the first has no insert and at most the rejections of the
    second. *)
Definition previews (dry real : string * Counts) : Prop :=
  dry.1 = real.1
  ∧ inserted dry.2 = 0
  ∧ warned dry.2 = warned real.2
  ∧ rejected dry.2 ≤ rejected real.2.

(** What a table's rows count as when every write is taken, and when every
    write is turned away. *)
Definition counts_if_taken (rules : MappingRules) (t : string)
    (rows : list SourceRow) : Counts :=
  tally (length (writable rules t rows))
        (warned (mapping_counts rules t rows))
        (rejected (mapping_counts rules t rows)).

Definition counts_if_refused (rules : MappingRules) (t : string)
    (rows : list SourceRow) : Counts :=
  tally 0 (warned (mapping_counts rules t rows)) (length rows).

(** The keys a table holds. *)
Definition keys (ts : gmap string (list DestRow)) (t : string) : list (option Z) :=
  (rows_of ts t).*1.

(** The key of every record the mapper did not reject is in its table. *)
Definition keys_present (rules : MappingRules) (t dt : string)
    (rows : list SourceRow) (ts : gmap string (list DestRow)) : Prop :=
  ∀ row, row ∈ rows → status (map_row rules t row) ≠ Rejected →
         natural_key (map_row rules t row) ∈ keys ts dt.

Definition plan_keys_present (rules : MappingRules) (plan : list TransferUnit)
    (rows : string → list SourceRow) (ts : gmap string (list DestRow)) : Prop :=
  ∀ u, u ∈ plan → keys_present rules (table u) (dest_table u) (rows (table u)) ts.

(** Every insert that is issued is turned away. *)
Definition all_refused (es : list Event) : Prop :=
  Forall (λ e, ∀ t r o, e = InsertIssued t r o → o = ConstraintViolation) es.

(** Modelled from the spec: the scenario of its testable properties: the
    legacy store has three parts rows, one of them with a null name; a null
    name is a soft issue.  Every other table is empty, and so is the
    destination. *)
Definition scenario_rules : MappingRules :=
  {| map_columns := λ _ cols, cols;
     soft_issue := λ _ row, bool_decide (("name", None) ∈ columns row) |}.

Definition scenario_parts : list SourceRow :=
  [ {| primary_key := Some 1%Z; columns := [("name", Some "blade")] |};
    {| primary_key := Some 2%Z; columns := [("name", None)] |};
    {| primary_key := Some 3%Z; columns := [("name", Some "belt")] |} ].

Definition scenario_rows (t : string) : list SourceRow :=
  if decide (t = "parts") then scenario_parts else [].

Definition scenario_source : SourceHandle := λ t, Some (scenario_rows t).

(** A legacy store with one part category besides the parts of the scenario,
    and one whose first parts row has lost its primary key. *)
Definition cutover_source : SourceHandle :=
  λ t, Some (if decide (t = "part_categories")
             then [ {| primary_key := Some 1%Z; columns := [("name", Some "knives")] |} ]
             else scenario_rows t).

Definition keyless_row : SourceRow :=
  {| primary_key := None; columns := [("name", Some "whetstone")] |}.

Definition keyless_source : SourceHandle :=
  λ t, Some (if decide (t = "parts") then keyless_row :: scenario_parts else []).

Definition empty_destination : DestinationHandle := {| tables := ∅; link := None |}.

Definition section_of (t : string) (r : TransferReport) : list Counts :=
  snd <$> filter (λ s, s.1 = t) (sections r).

End Transfer.

(** ** The change notification broadcaster (realtime backend)

    The backend is not among the sources; this module is modelled from the
    specification's section on the Change Notification Broadcaster. *)

Module Broadcaster.

(** Modelled from the spec: the enumerated entity kinds and operations of a
    ChangeEvent. *)
Inductive EntityKind := part | order | task.
Inductive Operation := created | updated | deleted.

(** Modelled from the spec: the ChangeEvent payload
    [{entityKind, entityId, operation, timestamp}]. *)
Record ChangeEvent := {
  entityKind : EntityKind;
  entityId : Z;
  operation : Operation;
  timestamp : Z
}.

(** Modelled from the spec: a Subscriber (connection handle, authenticated
    principal, subscribed-since timestamp), known to the registry by the
    subscription handle it was given. *)
Record Subscriber := {
  handle : nat;
  connection : nat;
  principal : string;
  since : Z
}.

#[global] Instance Subscriber_eq_dec : EqDecision Subscriber.
Proof. solve_decision. Defined.

(** Modelled from the spec: the subscriber registry, with the next handle to
    give out. *)
Record Registry := {
  next_handle : nat;
  subscribers : list Subscriber
}.

Definition empty_registry : Registry := {| next_handle := 0; subscribers := [] |}.

Definition handles (r : Registry) : list nat := handle <$> subscribers r.

(** Modelled from the spec: [subscribe(connection) -> SubscriptionHandle], for
    a connection whose handshake has authenticated [who]. *)
Definition subscribe (conn : nat) (who : string) (now : Z) (r : Registry)
  : nat * Registry :=
  (next_handle r,
   {| next_handle := S (next_handle r);
      subscribers := subscribers r ++
        [ {| handle := next_handle r; connection := conn;
             principal := who; since := now |} ] |}).

(** Modelled from the spec: [unsubscribe(handle)]. *)
Definition unsubscribe (h : nat) (r : Registry) : Registry :=
  {| next_handle := next_handle r;
     subscribers := filter (λ s, handle s ≠ h) (subscribers r) |}.

(** Modelled from the spec: the outcome of one delivery; a
    SubscriberDeliveryFault is what a closed connection gives. *)
Inductive Delivery := Delivered | SubscriberDeliveryFault.

#[global] Instance Delivery_eq_dec : EqDecision Delivery.
Proof. solve_decision. Defined.

(** What writing an event to a connection results in at the time of a
    publish. *)
Abbreviation Wire := (nat → ChangeEvent → Delivery).

(** Modelled from the spec: delivery to each of [targets] in turn.  A fault
    is confined to its subscriber, which is taken out of the registry, and
    delivery goes on with the next one.  The log lists the attempts made. *)
Fixpoint deliver (wire : Wire) (event : ChangeEvent) (targets : list Subscriber)
    (r : Registry) : Registry * list (nat * Delivery) :=
  match targets with
  | [] => (r, [])
  | s :: rest =>
      match wire (connection s) event with
      | Delivered =>
          match deliver wire event rest r with
          | (r', log) => (r', (handle s, Delivered) :: log)
          end
      | SubscriberDeliveryFault =>
          match deliver wire event rest (unsubscribe (handle s) r) with
          | (r', log) => (r', (handle s, SubscriberDeliveryFault) :: log)
          end
      end
  end.

(** Modelled from the spec: [publish(event)] delivers to every subscriber
    registered at the time of the call. *)
Definition publish (wire : Wire) (event : ChangeEvent) (r : Registry)
  : Registry * list (nat * Delivery) :=
  deliver wire event (subscribers r) r.

(** Modelled from the spec: the operations the API process and the channel
    endpoint invoke on the broadcaster. *)
Inductive Op :=
| Subscribe (conn : nat) (who : string) (now : Z)
| Unsubscribe (h : nat)
| Publish (wire : Wire) (event : ChangeEvent).

Definition step (op : Op) (r : Registry) : Registry * list (nat * Delivery) :=
  match op with
  | Subscribe conn who now => ((subscribe conn who now r).2, [])
  | Unsubscribe h => (unsubscribe h r, [])
  | Publish wire event => publish wire event r
  end.

(** A sequence of operations: the registry it leaves and every delivery
    attempt made along the way. *)
Fixpoint run_ops (ops : list Op) (r : Registry) : Registry * list (nat * Delivery) :=
  match ops with
  | [] => (r, [])
  | op :: rest =>
      match step op r with
      | (r1, log1) =>
          match run_ops rest r1 with (r2, log2) => (r2, log1 ++ log2) end
      end
  end.

(** A handle is spent in a registry when it was given out and is no longer
    registered. *)
Definition spent (h : nat) (r : Registry) : Prop :=
  h < next_handle r ∧ h ∉ handles r.

(** Every registered handle was given out by the registry. *)
Definition well_formed (r : Registry) : Prop :=
  ∀ h, h ∈ handles r → h < next_handle r.

(** Three clients connect; the connection of the second is closed by the time
    a task update is published; later a fourth connects and another update is
    published with every connection open. *)
Definition three_clients : list Op :=
  [ Subscribe 10 "ann" 1%Z; Subscribe 11 "bob" 2%Z; Subscribe 12 "cyd" 3%Z ].

Definition second_closed : Wire :=
  λ conn _, if decide (conn = 11) then SubscriberDeliveryFault else Delivered.

Definition all_open : Wire := λ _ _, Delivered.

Definition task_updated : ChangeEvent :=
  {| entityKind := task; entityId := 7%Z; operation := updated; timestamp := 100%Z |}.

Definition afterwards : list Op :=
  [ Subscribe 13 "dee" 4%Z; Publish all_open task_updated ].

End Broadcaster.

(** ** The worker over its lifetime (service-worker.js) *)

Module WorkerEvents.
Import ServiceWorker.

(** The cache storage as the install handler leaves it. *)
Definition after_install (net : Network) (s : CacheStorage) : CacheStorage :=
  (install_handler net s).1.2.

(** The promise given to [event.waitUntil] resolved, so the worker is
    installed. *)
Definition install_resolved (net : Network) (s : CacheStorage) : Prop :=
  (install_handler net s).1.1 = Some ().

(** The fetch events the browser dispatches to the worker, one after the
    other; each comes with the network as it is at that moment.  The result
    lists the answer to each event, the storage at the end and all calls
    made. *)
Fixpoint dispatch_fetches (events : list (Network * Request)) (s : CacheStorage)
  : list (option Response) * CacheStorage * list Call :=
  match events with
  | [] => ([], s, [])
  | e :: rest =>
      match fetch_handler e.1 e.2 s with
      | (answer, s1, log1) =>
          match dispatch_fetches rest s1 with
          | (answers, s2, log2) => (answer :: answers, s2, log1 ++ log2)
          end
      end
  end.

(** A network that serves a second release of the site. *)
Definition second_release : Network :=
  λ r, Some {| status := 200; body := "v2:" ++ url r |}.

End WorkerEvents.

(** ** The session slice (store/sessionSlice.ts) *)

Module SessionSlice.

Record SessionState := {
  token : option string;
  userName : option string
}.

#[global] Instance SessionState_eq_dec : EqDecision SessionState.
Proof. solve_decision. Defined.

Definition initialState : SessionState := {| token := None; userName := None |}.

(** The actions the store hands to the slice's reducer: the slice's own two,
    and every action of another slice, which is known by its type only. *)
Inductive Action :=
| setSession (payload : SessionState)
| clearSession
| other (type : string).

#[global] Instance Action_eq_dec : EqDecision Action.
Proof. solve_decision. Defined.

(** The reducer of the slice.  [setSession] assigns the two fields from the
    payload, [clearSession] sets both to null, and an action that is not the
    slice's leaves the state as it is. *)
Definition reducer (state : SessionState) (action : Action) : SessionState :=
  match action with
  | setSession payload =>
      let state1 := {| token := token payload; userName := userName state |} in
      {| token := token state1; userName := userName payload |}
  | clearSession =>
      let state1 := {| token := None; userName := userName state |} in
      {| token := token state1; userName := None |}
  | other _ => state
  end.

(** The state after the store dispatched [actions] in order. *)
Definition dispatch_all (state : SessionState) (actions : list Action) : SessionState :=
  foldl reducer state actions.

Definition signed_in : SessionState :=
  {| token := Some "eyJhbGciOi"; userName := Some "admin@example.com" |}.

End SessionSlice.

(** ** The layout's navigation bar (components/AppLayout) *)

Module AppLayout.

(** The three [BottomNavigationAction]s, in the order they are rendered. *)
Inductive Tab := Panel | Stock | Tasks.

#[global] Instance Tab_eq_dec : EqDecision Tab.
Proof. solve_decision. Defined.

Definition tabs : list Tab := [Panel; Stock; Tasks].

(** The [value] of each action. *)
Definition tab_value (t : Tab) : string :=
  match t with Panel => "/" | Stock => "/parts" | Tasks => "/tasks" end.

Definition NAV_HEIGHT : nat := 56.

(** What the layout's rendering depends on: the router's
    [location.pathname] and the component's own [value] state. *)
Record LayoutState := {
  pathname : string;
  value : string
}.

(** The first render: [useState(location.pathname)]. *)
Definition mount (p : string) : LayoutState := {| pathname := p; value := p |}.

Definition setValue (v : string) (st : LayoutState) : LayoutState :=
  {| pathname := pathname st; value := v |}.

(** [navigate(to)] for an absolute path: the location becomes that path. *)
Definition navigate (to : string) (st : LayoutState) : LayoutState :=
  {| pathname := to; value := value st |}.

(** The effect with the dependency [location.pathname]: it runs when the
    pathname differs from the one of the previous render, and then sets
    [value] to the pathname. *)
Definition run_effect (previous : string) (st : LayoutState) : LayoutState :=
  if decide (pathname st = previous) then st else setValue (pathname st) st.

(** What can happen to a mounted layout: a tab is tapped, or the location
    changes by other means (a link, the back button). *)
Inductive LayoutEvent :=
| Tapped (t : Tab)
| LocationChanged (p : string).

(** A tap calls [onChange] with the tab's value: [setValue(newValue)], then
    [navigate(newValue)]; the effect runs after the render that follows. *)
Definition handle (e : LayoutEvent) (st : LayoutState) : LayoutState :=
  match e with
  | Tapped t =>
      let newValue := tab_value t in
      run_effect (pathname st) (navigate newValue (setValue newValue st))
  | LocationChanged p =>
      run_effect (pathname st) {| pathname := p; value := value st |}
  end.

Definition handle_all (es : list LayoutEvent) (st : LayoutState) : LayoutState :=
  foldl (λ st e, handle e st) st es.

(** The tabs the bar shows as selected: those whose value is the bar's
    [value]. *)
Definition selected (st : LayoutState) : list Tab :=
  filter (λ t, tab_value t = value st) tabs.

(** The page the route table mounts at a full path, if any. *)
Definition page_at (p : string) : option Router.Element :=
  Router.page <$> head (filter (λ b, Router.join_paths (Router.segments b) = p)
                               (Router.branches Router.router)).

End AppLayout.

(** ** The parts page (pages/PartsPage.tsx) *)

Module PartsPage.
Import PartsService.

(** What the translation function gives for a key and its interpolation
    values; [None] is null. *)
Abbreviation Translate := (string → list (string * Z) → option string).

(** [x || fallback] for a string or null [x]: null and the empty string are
    falsy. *)
Definition or_else (x : option string) (fallback : string) : string :=
  match x with
  | Some (String c rest) => String c rest
  | _ => fallback
  end.

(** One [ListItemButton]. *)
Record Row := {
  key : Z;
  primary : string;
  secondary : option string
}.

(** What the page renders, as far as it depends on the query and the
    translations. *)
Record View := {
  title : option string;
  refresh_label : string;
  search_placeholder : string;
  spinner_label : option string;
  rows : list Row
}.

Definition row_of (t : Translate) (part : Part) : Row :=
  {| key := id part;
     primary := name part ++ " (" ++ sku part ++ ")";
     secondary := t "parts.qty" [("qty", qty part); ("min", min_qty part)] |}.

(** The page for the query's [data] ([None]: undefined) and [isLoading]. *)
Definition render (t : Translate) (data : option (PaginatedResponse Part))
    (isLoading : bool) : View :=
  {| title := t "parts.title" [];
     refresh_label := or_else (t "actions.refresh" []) "Refresh";
     search_placeholder := or_else (t "parts.search_placeholder" []) "";
     spinner_label := if isLoading then Some (or_else (t "loading" []) "Loading")
                      else None;
     rows := match data with
             | Some d => row_of t <$> items d
             | None => []
             end |}.

(** A translation function that knows no key. *)
Definition untranslated : Translate := λ _ _, None.

End PartsPage.

(** * Properties *)

(** ** Service worker *)

Module ServiceWorkerFacts.
Import ServiceWorker.

Lemma find_cache_update_cache name f s name' :
  find_cache (update_cache name f s) name'
  = if decide (name' = name) then f <$> find_cache s name' else find_cache s name'.
Proof.
  induction s as [|[n c] s IH]; simpl.
  - by case_decide.
  - destruct (decide (n = name)) as [->|Hn]; simpl.
    + destruct (decide (name = name')) as [<-|Hne].
      * by rewrite decide_True.
      * rewrite IH. by rewrite decide_False.
    + destruct (decide (n = name')) as [->|Hne].
      * by rewrite decide_False.
      * apply IH.
Qed.

Lemma find_cache_app s1 s2 name :
  find_cache (s1 ++ s2) name
  = match find_cache s1 name with Some c => Some c | None => find_cache s2 name end.
Proof.
  induction s1 as [|[n c] s1 IH]; simpl; [done|]. by case_decide.
Qed.

(** Opening a cache leaves every cache as it was and makes the opened one
    exist, empty when it is new. *)
Lemma find_cache_opened name s name' :
  find_cache (caches_open name s).1.2 name'
  = if decide (name' = name)
    then Some (default ∅ (find_cache s name))
    else find_cache s name'.
Proof.
  unfold caches_open; simpl.
  destruct (find_cache s name) as [c|] eqn:Hc.
  - case_decide; by subst.
  - rewrite find_cache_app. simpl.
    destruct (decide (name' = name)) as [->|Hne].
    + rewrite Hc. by rewrite decide_True.
    + rewrite decide_False by done. by destruct (find_cache s name').
Qed.

(** A response is found exactly when some cache holds one for the request. *)
Lemma first_match_None request s :
  first_match request s = None ↔ ∀ c, c ∈ s → cache_match request c.2 = None.
Proof.
  induction s as [|c s IH]; simpl.
  - split; [intros _ c Hc; by apply elem_of_nil in Hc | done].
  - destruct (cache_match request c.2) as [r|] eqn:Hm.
    + split; [done|]. intros H. specialize (H c (list_elem_of_here _ _)). congruence.
    + rewrite IH. split.
      * intros H c' [->|Hc']%elem_of_cons; auto.
      * intros H c' Hc'. apply H. by apply list_elem_of_further.
Qed.

(** C6.  Whatever the network answers and whatever the cache storage holds,
    the install handler opens the cache "static-v1" and asks for exactly the
    two entries "/" and "/manifest.webmanifest", in that order.  Afterwards
    that cache exists; it holds what it held before plus, when both
    responses arrived with an ok status other than 206, these two responses
    (otherwise nothing is added); every other URL of that cache and every
    other cache is as before. *)
Theorem install_precaches_two_assets (net : Network) (s : CacheStorage) :
  let s' := (install_handler net s).1.2 in
  let old : Cache := default ∅ (find_cache s "static-v1") in
  (install_handler net s).2
  = [ CachesOpen "static-v1";
      CacheAddAll "static-v1" ["/"; "/manifest.webmanifest"];
      Fetch (GET "/"); Fetch (GET "/manifest.webmanifest") ]
  ∧ length PRECACHE = 2
  ∧ find_cache s' "static-v1"
    = Some match net (GET "/"), net (GET "/manifest.webmanifest") with
           | Some r1, Some r2 =>
               if storable r1 && storable r2
               then <["/manifest.webmanifest" := r2]> (<["/" := r1]> old)
               else old
           | _, _ => old
           end
  ∧ (∀ u, u ∉ ["/"; "/manifest.webmanifest"] →
       cached s' "static-v1" u = cached s "static-v1" u)
  ∧ (∀ name, name ≠ "static-v1" → find_cache s' name = find_cache s name).
Proof.
  cbv zeta.
  assert (Hopen : ∀ name',
    find_cache (caches_open "static-v1" s).1.2 name'
    = if decide (name' = "static-v1")
      then Some (default ∅ (find_cache s "static-v1")) else find_cache s name')
    by apply find_cache_opened.
  assert (Hfind : ∀ name',
    find_cache (install_handler net s).1.2 name'
    = if decide (name' = "static-v1")
      then Some match net (GET "/"), net (GET "/manifest.webmanifest") with
                | Some r1, Some r2 =>
                    if storable r1 && storable r2
                    then <["/manifest.webmanifest" := r2]>
                           (<["/" := r1]> (default ∅ (find_cache s "static-v1")))
                    else default ∅ (find_cache s "static-v1")
                | _, _ => default ∅ (find_cache s "static-v1")
                end
      else find_cache s name').
  { intros name'. unfold install_handler, then_, CACHE_NAME, PRECACHE.
    unfold caches_open in *. simpl in Hopen. unfold cache_addAll. simpl.
    destruct (net (GET "/")) as [r1|]; simpl.
    - destruct (net (GET "/manifest.webmanifest")) as [r2|]; simpl.
      + destruct (storable r2); simpl.
        * destruct (storable r1); simpl.
          -- rewrite find_cache_update_cache, Hopen.
             by case_decide.
          -- apply Hopen.
        * rewrite andb_false_r. apply Hopen.
      + apply Hopen.
    - destruct (net (GET "/manifest.webmanifest")) as [r2|]; apply Hopen. }
  split_and!.
  - unfold install_handler, then_, cache_addAll, caches_open, CACHE_NAME, PRECACHE.
    simpl.
    destruct (net (GET "/")) as [r1|];
      destruct (net (GET "/manifest.webmanifest")) as [r2|]; simpl; try done.
    destruct (storable r2), (storable r1); done.
  - done.
  - by rewrite Hfind.
  - intros u Hu. unfold cached. rewrite Hfind. simpl.
    assert (u ≠ "/" ∧ u ≠ "/manifest.webmanifest") as [H1 H2].
    { split; intros ->; apply Hu; repeat constructor. }
    assert (Hold : (default ∅ (find_cache s "static-v1") : Cache) !! u
                   = find_cache s "static-v1" ≫= (λ c : Cache, c !! u)).
    { by destruct (find_cache s "static-v1"). }
    destruct (net (GET "/")) as [r1|]; [|done].
    destruct (net (GET "/manifest.webmanifest")) as [r2|]; [|done].
    destruct (storable r1 && storable r2); [|done].
    by rewrite !lookup_insert_ne.
  - intros name Hname. rewrite Hfind. by rewrite decide_False.
Qed.

(** On a browser without caches and a working network, the install leaves the
    cache with the two entries; when the network is down, or answers "/" with
    status 206, the install rejects and leaves the cache empty. *)
Lemma install_precaches_two_assets_witness :
  find_cache (install_handler online []).1.2 "static-v1"
  = Some (<["/manifest.webmanifest" := {| status := 200; body := "/manifest.webmanifest" |}]>
            (<["/" := {| status := 200; body := "/" |}]> ∅))
  ∧ (install_handler online []).1.1 = Some ()
  ∧ find_cache (install_handler offline []).1.2 "static-v1" = Some ∅
  ∧ (install_handler offline []).1.1 = None
  ∧ find_cache (install_handler partial_root []).1.2 "static-v1" = Some ∅
  ∧ (install_handler partial_root []).1.1 = None.
Proof.
  destruct (install_precaches_two_assets online []) as (_ & _ & Hon & _).
  destruct (install_precaches_two_assets offline []) as (_ & _ & Hoff & _).
  destruct (install_precaches_two_assets partial_root []) as (_ & _ & Hpart & _).
  split; [exact Hon|]. split; [reflexivity|]. split; [exact Hoff|].
  split; [reflexivity|]. split; [exact Hpart|reflexivity].
Defined.

(** C10.  The fetch handler is cache-first: when some cache holds a response
    for the request, that response is the answer and the only call made is
    the cache lookup; otherwise the answer is whatever the network gives for
    the same request, fetched after the lookup.  The network is consulted
    exactly when no cache holds a match, and the storage is never changed. *)
Theorem fetch_handler_cache_first (net : Network) (request : Request)
    (s : CacheStorage) :
  fetch_handler net request s
  = match first_match request s with
    | Some r => (Some r, s, [CachesMatch request])
    | None => (net request, s, [CachesMatch request; Fetch request])
    end
  ∧ (Fetch request ∈ (fetch_handler net request s).2
     ↔ ∀ c, c ∈ s → cache_match request c.2 = None).
Proof.
  assert (Heq : fetch_handler net request s
    = match first_match request s with
      | Some r => (Some r, s, [CachesMatch request])
      | None => (net request, s, [CachesMatch request; Fetch request])
      end).
  { unfold fetch_handler, then_, caches_match, resolve, fetch.
    by destruct (first_match request s). }
  split; [exact Heq|].
  rewrite Heq, <- first_match_None.
  destruct (first_match request s) as [r|]; simpl.
  - split; [|done]. intros H. apply list_elem_of_singleton in H. discriminate.
  - split; [done|]. intros _. apply list_elem_of_further, list_elem_of_here.
Qed.

(** With "/" in the cache and the network down, a request for "/" is answered
    from the cache without a fetch, and a request for the parts list, which
    is not cached, goes to the network and fails there. *)
Lemma fetch_handler_cache_first_witness :
  fetch_handler offline (GET "/") installed
  = (Some {| status := 200; body := "<html>" |}, installed, [CachesMatch (GET "/")])
  ∧ fetch_handler offline (GET "/api/parts") installed
    = (None, installed, [CachesMatch (GET "/api/parts"); Fetch (GET "/api/parts")]).
Proof.
  destruct (fetch_handler_cache_first offline (GET "/") installed) as [Hhit _].
  destruct (fetch_handler_cache_first offline (GET "/api/parts") installed) as [Hmiss _].
  split; [exact Hhit|exact Hmiss].
Defined.

End ServiceWorkerFacts.

(** ** Route table *)

Module RouterFacts.
Import Router.

(** C7.  The route table has a single top-level route, the application layout
    at "/", and exactly three pages below it: the dashboard as its index
    route, the parts page at "parts" and the tasks page at "tasks".  Their
    full paths are "/", "/parts" and "/tasks", which are the three targets of
    the layout's navigation bar. *)
Theorem router_three_pages :
  (element <$> router = [AppLayout] ∧ path <$> router = [Some "/"])
  ∧ (λ r, (path r, index r, element r, children r)) <$> flat_map children router
    = [ (None, true, DashboardPage, []);
        (Some "parts", false, PartsPage, []);
        (Some "tasks", false, TasksPage, []) ]
  ∧ branches router
    = [ {| segments := ["/"]; is_index := true;
           layouts := [AppLayout]; page := DashboardPage |};
        {| segments := ["/"; "parts"]; is_index := false;
           layouts := [AppLayout]; page := PartsPage |};
        {| segments := ["/"; "tasks"]; is_index := false;
           layouts := [AppLayout]; page := TasksPage |} ]
  ∧ length (branches router) = 3
  ∧ (join_paths ∘ segments) <$> branches router = NAV_VALUES.
Proof. split_and!; reflexivity. Qed.

End RouterFacts.

(** ** Parts query *)

Module PartsServiceFacts.
Import PartsService.

Lemma queryFn_sends (server : Server) : (queryFn server).1 = [first_page].
Proof. done. Qed.

Lemma queryFn_returns (server : Server) : (queryFn server).2 = server first_page.
Proof.
  unfold queryFn, axios_get. simpl. fold first_page.
  by destruct (server first_page).
Qed.

Lemma run_query_again {A} (q : QueryOptions A) server next later :
  run_query q (server :: next :: later)
  = ((query_fn q server).1 ++ (run_query q (next :: later)).1,
     (run_query q (next :: later)).2).
Proof.
  cbn [run_query]. destruct (query_fn q server) as [sent result].
  destruct later as [|third later]; cbn [fst snd].
  - by destruct (query_fn q next).
  - by destruct (query_fn q next), (run_query q (third :: later)).
Qed.

Lemma run_query_sends (servers : list Server) :
  (run_query useParts servers).1 = replicate (length servers) first_page.
Proof.
  induction servers as [|server [|next later] IH]; [done..|].
  rewrite run_query_again. cbn [fst]. by rewrite IH.
Qed.

Lemma backend_honours_page_size (db : list Part) : honours_page_size (backend db).
Proof.
  intros r d n Hd Hn. unfold backend in Hd. rewrite Hn in Hd.
  destruct (param "page" r) as [p|]; [|done].
  destruct (bool_decide (1 ≤ p)%Z && bool_decide (1 ≤ n)%Z) eqn:Hpn; [|done].
  apply andb_true_iff in Hpn as [_ Hn1%bool_decide_eq_true].
  injection Hd as <-. simpl. rewrite length_take. lia.
Qed.

(** The first page the backend serves is made of its first fifty parts. *)
Lemma backend_first_page (db : list Part) :
  backend db first_page
  = Some {| items := take 50 db; total := Z.of_nat (length db);
            page := 1; page_size := 50 |}.
Proof. done. Qed.

(** C8.  The paginated response has the four members items, total, page and
    page_size and nothing else: the declaration lists exactly these, and a
    response is determined by its values for them. *)
Theorem PaginatedResponse_four_fields (T : Type) (r : PaginatedResponse T) :
  PaginatedResponse_members.*1 = ["items"; "total"; "page"; "page_size"]
  ∧ r = {| items := items r; total := total r;
           page := page r; page_size := page_size r |}
  ∧ (∀ r' : PaginatedResponse T,
       (items r', total r', page r', page_size r')
       = (items r, total r, page r, page_size r) → r' = r).
Proof.
  destruct r as [i t p n]. split_and!; [done..|].
  intros [i' t' p' n']; simpl. by intros [= -> -> -> ->].
Qed.

(** C9.  Every run of the parts query, the first one and every refetch, sends
    the one request GET /api/parts with page 1 and page_size 50 and returns
    what the server answers to it, so no other page is ever requested; and
    from a server that honours the page size the client gets at most fifty
    parts, whatever total the answer reports. *)
Theorem useParts_first_page_only (servers : list Server) (server : Server)
    (Hserver : honours_page_size server) :
  query_fn useParts server = ([first_page], server first_page)
  ∧ (run_query useParts servers).1 = replicate (length servers) first_page
  ∧ (∀ r, r ∈ (run_query useParts servers).1 →
       http_url r = "/api/parts"
       ∧ param "page" r = Some 1%Z ∧ param "page_size" r = Some 50%Z)
  ∧ (∀ d, (query_fn useParts server).2 = Some d → (length (items d) ≤ 50)%nat).
Proof.
  split_and!.
  - change (query_fn useParts server) with (queryFn server).
    rewrite (surjective_pairing (queryFn server)).
    by rewrite queryFn_sends, queryFn_returns.
  - apply run_query_sends.
  - intros r. rewrite run_query_sends. by intros [-> _]%elem_of_replicate.
  - intros d. change (query_fn useParts server) with (queryFn server).
    rewrite queryFn_returns. intros Hd.
    specialize (Hserver first_page d 50%Z Hd eq_refl). lia.
Qed.

(** With sixty parts in the backend, the query and two refetches send the
    same request three times and each gets the first fifty. *)
Lemma useParts_first_page_only_witness :
  honours_page_size (backend sixty_parts)
  ∧ (run_query useParts (replicate 3 (backend sixty_parts))).1
    = [first_page; first_page; first_page]
  ∧ ((λ d, (length (items d), total d))
       <$> (query_fn useParts (backend sixty_parts)).2)
    = Some (50, 60%Z).
Proof.
  split; [apply backend_honours_page_size|].
  pose proof (useParts_first_page_only
                (replicate 3 (backend sixty_parts)) (backend sixty_parts)
                (backend_honours_page_size sixty_parts)) as (_ & Hsent & _ & _).
  split; [exact Hsent | reflexivity].
Defined.

End PartsServiceFacts.

(** ** Transfer engine *)

Module TransferFacts.
Import Transfer.

Section Engine.
Context (rules : MappingRules) (admits : Constraints).

Lemma mapping_counts_cons t row rows :
  mapping_counts rules t (row :: rows)
  = add_counts
      (match status (map_row rules t row) with
       | Valid => tally 0 0 0 | Warned => tally 0 1 0 | Rejected => tally 0 0 1
       end)
      (mapping_counts rules t rows).
Proof.
  unfold mapping_counts, add_counts, tally. cbn [fmap list_fmap].
  rewrite !filter_cons.
  destruct (status (map_row rules t row)); repeat case_decide; done.
Qed.

(** A dry run over the rows of a table maps each row, touches nothing and
    counts what the mapper found. *)
Lemma transfer_rows_dry t dt rows d :
  transfer_rows rules admits true t dt rows d
  = {| fatal := false; dest := d;
       counts := mapping_counts rules t rows;
       events := RowMapped t <$> (map_row rules t <$> rows) |}.
Proof.
  induction rows as [|row rows IH]; [done|].
  cbn [transfer_rows]. rewrite IH, mapping_counts_cons.
  by destruct (status (map_row rules t row)).
Qed.

Lemma transfer_unit_dry source u d :
  transfer_unit rules admits true source u d
  = match source (table u) with
    | None => {| fatal := true; dest := d; counts := tally 0 0 0;
                 events := [UnitStarted (table u); ReadFailed (table u)] |}
    | Some rows =>
        {| fatal := false; dest := d;
           counts := mapping_counts rules (table u) rows;
           events := UnitStarted (table u) :: TableRead (table u) (length rows)
                     :: (RowMapped (table u) <$> (map_row rules (table u) <$> rows))
                     ++ [UnitCompleted (table u)] |}
    end.
Proof.
  unfold transfer_unit. destruct (source (table u)) as [rows|]; [|done].
  by rewrite transfer_rows_dry.
Qed.

(** A dry run leaves the destination handle as it was, issues no insert and
    reports the preview. *)
Lemma transfer_units_dry source plan d :
  let o := transfer_units rules admits true source plan d in
  destination o = d
  ∧ report o = preview rules source plan
  ∧ Forall (λ e, is_insert e = false) (trace o).
Proof.
  induction plan as [|u plan IH]; [done|].
  cbn [transfer_units preview]. rewrite transfer_unit_dry.
  destruct (source (table u)) as [rows|]; cbn [fatal dest counts events].
  - destruct IH as (Hd & Hr & Ht). cbn [destination report trace].
    rewrite Hd, Hr. split_and!; [done..|].
    rewrite !app_comm_cons. apply Forall_app. split; [|done].
    repeat constructor. apply Forall_app. split; [|by repeat constructor].
    apply Forall_fmap, Forall_true. done.
  - split_and!; [done..|]. by repeat constructor.
Qed.

Lemma insert_row_connected t row d :
  link d = None →
  insert_row admits t row d
  = if admits (tables d) t row
    then (Written, {| tables := <[t := rows_of (tables d) t ++ [row]]> (tables d);
                      link := None |})
    else (ConstraintViolation, {| tables := tables d; link := None |}).
Proof. intros Hl. unfold insert_row. rewrite Hl. done. Qed.

(** Over a connection that is never lost, the rows of a table are all
    handled: the same rows are mapped as in a dry run, the warnings are the
    mapper's, and every row ends up inserted or rejected. *)
Lemma transfer_rows_connected t dt rows d :
  link d = None →
  let p := transfer_rows rules admits false t dt rows d in
  fatal p = false
  ∧ link (dest p) = None
  ∧ warned (counts p) = warned (mapping_counts rules t rows)
  ∧ rejected (mapping_counts rules t rows) ≤ rejected (counts p)
  ∧ inserted (counts p) + rejected (counts p) = length rows
  ∧ filter (λ e, is_insert e = false) (events p)
    = RowMapped t <$> (map_row rules t <$> rows).
Proof.
  cbv zeta. revert d. induction rows as [|row rows IH]; intros d Hl; [done|].
  cbn [transfer_rows]. rewrite mapping_counts_cons.
  destruct (status (map_row rules t row)) eqn:Hs;
    try (rewrite (insert_row_connected _ _ _ Hl);
         destruct (admits (tables d) dt _));
    match goal with
    | |- context [transfer_rows _ _ _ _ _ _ ?d'] =>
        destruct (IH d') as (Hf & Hl' & Hw & Hr & Hi & He); [done|]
    end;
    cbn [after fatal dest counts events add_counts tally inserted warned
         rejected warning_of length fmap list_fmap app];
    rewrite ?filter_cons; cbn [is_insert]; repeat case_decide; try done;
    rewrite ?He; split_and!; try done; try lia.
Qed.

Lemma transfer_unit_connected source u d rows :
  link d = None → source (table u) = Some rows →
  let p := transfer_unit rules admits false source u d in
  fatal p = false
  ∧ link (dest p) = None
  ∧ previews (table u, mapping_counts rules (table u) rows) (table u, counts p)
  ∧ inserted (counts p) + rejected (counts p) = length rows
  ∧ filter (λ e, is_insert e = false) (events p)
    = events (transfer_unit rules admits true source u d).
Proof.
  intros Hl Hrows. cbv zeta. rewrite transfer_unit_dry.
  unfold transfer_unit. rewrite Hrows.
  destruct (transfer_rows_connected (table u) (dest_table u) rows d Hl)
    as (Hf & Hl' & Hw & Hr & Hi & He).
  cbn [fatal dest counts events]. rewrite Hf.
  split_and!; try done.
  rewrite !filter_cons. cbn [is_insert].
  rewrite !decide_True by done. rewrite filter_app, He. done.
Qed.

(** What a dry run does and reports does not depend on the destination. *)
Lemma transfer_units_dry_any source plan d d' :
  trace (transfer_units rules admits true source plan d)
  = trace (transfer_units rules admits true source plan d')
  ∧ report (transfer_units rules admits true source plan d)
    = report (transfer_units rules admits true source plan d').
Proof.
  pose proof (transfer_units_dry source plan d) as (_ & Hr & _).
  pose proof (transfer_units_dry source plan d') as (_ & Hr' & _).
  cbv zeta in *. split; [|congruence]. clear Hr Hr'.
  induction plan as [|u plan IH]; [done|].
  cbn [transfer_units]. rewrite !transfer_unit_dry.
  destruct (source (table u)); cbn [fatal dest events trace]; [|done].
  by rewrite IH.
Qed.

(** A real run over a connection that is never lost maps and validates what
    the dry run does, stops where the dry run stops, and reports sections
    that the dry run's sections preview. *)
Lemma transfer_units_connected source plan d :
  link d = None →
  let real := transfer_units rules admits false source plan d in
  let dry := transfer_units rules admits true source plan d in
  link (destination real) = None
  ∧ aborted (report real) = aborted (report dry)
  ∧ Forall2 previews (sections (report dry)) (sections (report real))
  ∧ filter (λ e, is_insert e = false) (trace real) = trace dry.
Proof.
  cbv zeta. revert d. induction plan as [|u plan IH]; intros d Hl.
  { split_and!; done. }
  cbn [transfer_units].
  destruct (source (table u)) as [rows|] eqn:Hrows.
  - destruct (transfer_unit_connected source u d rows Hl Hrows)
      as (Hf & Hl' & Hp & _ & He).
    rewrite Hf. rewrite (transfer_unit_dry source u d) in *. rewrite Hrows in *.
    cbn [fatal dest counts events] in *.
    destruct (IH _ Hl') as (IHl & IHa & IHs & IHe).
    cbn [report destination trace sections aborted].
    destruct (transfer_units_dry_any source plan d
                (dest (transfer_unit rules admits false source u d)))
      as (Ht & Hr).
    rewrite Ht, Hr. split_and!; [done..| |].
    + by constructor.
    + by rewrite filter_app, He, IHe.
  - rewrite (transfer_unit_dry source u d). unfold transfer_unit.
    rewrite Hrows. cbn [fatal dest counts events report destination trace
                        sections aborted].
    split_and!; try done. repeat constructor.
Qed.

Lemma preview_inserts_nothing source plan :
  Forall (λ s, inserted s.2 = 0) (sections (preview rules source plan)).
Proof.
  induction plan as [|u plan IH]; [constructor|].
  cbn [preview]. destruct (source (table u)); cbn [sections]; by repeat constructor.
Qed.

(** *** What the trace of a run looks like *)

(** Every event of a table's row loop belongs to that table, and only
    records the mapper did not reject are written. *)
Lemma transfer_rows_events dry t dt rows d :
  Forall (λ e, event_table e = Some t
               ∧ ∀ t' r o, e = InsertIssued t' r o → status r ≠ Rejected)
         (events (transfer_rows rules admits dry t dt rows d)).
Proof.
  revert d. induction rows as [|row rows IH]; intros d; [constructor|].
  cbn [transfer_rows].
  destruct (status (map_row rules t row)) eqn:Hs;
    try (destruct dry; [|destruct (insert_row admits dt _ d) as [[] d']]);
    cbn [after events app];
    repeat first [ apply Forall_nil_2 | apply IH | apply Forall_cons_2 ];
    (split; [done|]); intros t' r o Heq; try discriminate;
    injection Heq as <- <- <-; by rewrite Hs.
Qed.

Lemma transfer_unit_events dry source u d :
  Forall (λ e, event_table e = Some (table u)
               ∧ ∀ t' r o, e = InsertIssued t' r o → status r ≠ Rejected)
         (events (transfer_unit rules admits dry source u d)).
Proof.
  unfold transfer_unit. destruct (source (table u)) as [rows|]; cbn [events].
  - repeat (constructor; [done|]). apply Forall_app. split.
    + apply transfer_rows_events.
    + destruct (fatal _); by repeat constructor.
  - by repeat constructor.
Qed.

(** A unit that does not end the run has completed. *)
Lemma transfer_unit_completed dry source u d :
  fatal (transfer_unit rules admits dry source u d) = false →
  ∃ j, events (transfer_unit rules admits dry source u d) !! j
       = Some (UnitCompleted (table u)).
Proof.
  unfold transfer_unit. destruct (source (table u)) as [rows|]; [|done].
  cbn [fatal events]. intros ->.
  exists (2 + length (events (transfer_rows rules admits dry (table u)
                                (dest_table u) rows d))).
  rewrite !app_comm_cons. by apply list_lookup_middle.
Qed.

(** The events of a run are events of the units of its plan, and a record
    that is written was not rejected. *)
Lemma transfer_units_events dry source plan d :
  Forall (λ e, (∃ u, u ∈ plan ∧ event_table e = Some (table u))
               ∧ ∀ t' r o, e = InsertIssued t' r o → status r ≠ Rejected)
         (trace (transfer_units rules admits dry source plan d)).
Proof.
  revert d. induction plan as [|u plan IH]; intros d; [constructor|].
  cbn [transfer_units].
  assert (Hu : Forall (λ e, (∃ u', u' ∈ u :: plan ∧ event_table e = Some (table u'))
                 ∧ ∀ t' r o, e = InsertIssued t' r o → status r ≠ Rejected)
                 (events (transfer_unit rules admits dry source u d))).
  { eapply Forall_impl; [apply transfer_unit_events|].
    intros e [He Hw]. split; [|done]. exists u. split; [constructor|done]. }
  destruct (fatal _); cbn [trace]; [done|].
  apply Forall_app. split; [done|].
  eapply Forall_impl; [apply IH|].
  intros e [(u' & Hu' & He) Hw]. split; [|done].
  exists u'. split; [by constructor|done].
Qed.

(** *** Plans that respect the dependencies *)

Lemma respects_from_fresh done plan u :
  respects_from done plan = true → u ∈ plan → table u ∉ done.
Proof.
  revert done. induction plan as [|u' plan IH]; intros done Hp Hu.
  { by apply elem_of_nil in Hu. }
  cbn [respects_from] in Hp.
  apply andb_true_iff in Hp as [Hp Hrest].
  apply andb_true_iff in Hp as [_ Hfresh]. apply bool_decide_eq_true in Hfresh.
  apply elem_of_cons in Hu as [->|Hu]; [done|].
  intros Hin. apply (IH _ Hrest Hu). by apply list_elem_of_further.
Qed.

Lemma respects_from_cons done u plan :
  respects_from done (u :: plan) = true →
  (∀ p, p ∈ predecessors u → p ∈ done)
  ∧ (table u ∉ done)
  ∧ (∀ u', u' ∈ plan → table u' ≠ table u)
  ∧ respects_from (table u :: done) plan = true.
Proof.
  intros Hp. cbn [respects_from] in Hp.
  apply andb_true_iff in Hp as [Hp Hrest].
  apply andb_true_iff in Hp as [Hpre Hfresh]. apply bool_decide_eq_true in Hfresh.
  split_and!; try done.
  - intros p Hin. rewrite forallb_forall in Hpre.
    apply list_elem_of_In, Hpre, bool_decide_eq_true in Hin. done.
  - intros u' Hu' Heq. apply (respects_from_fresh _ _ _ Hrest Hu').
    rewrite Heq. constructor.
Qed.

(** The heart of the ordering: in a run over a plan that respects the
    dependencies, when something happens for a unit, each of its
    predecessors was transferred before the plan ([done]) or has completed
    earlier in the trace, and nothing happens for a predecessor later on. *)
Lemma transfer_units_ordered dry source done plan d T P i e :
  respects_from done plan = true →
  T ∈ plan → P ∈ predecessors T →
  let tr := trace (transfer_units rules admits dry source plan d) in
  tr !! i = Some e → event_table e = Some (table T) →
  (P ∈ done ∨ ∃ j, j < i ∧ tr !! j = Some (UnitCompleted P))
  ∧ (∀ j e', tr !! j = Some e' → event_table e' = Some P → j < i).
Proof.
  cbv zeta. revert done d i.
  induction plan as [|u plan IH]; intros done d i Hplan HT HP Hi He.
  { by apply elem_of_nil in HT. }
  destruct (respects_from_cons _ _ _ Hplan) as (Hpre & Hfresh & Hother & Hrest).
  pose proof (transfer_unit_events dry source u d) as Hu.
  pose proof (transfer_units_events dry source plan
                (dest (transfer_unit rules admits dry source u d))) as Hlater.
  rewrite Forall_lookup in Hu. rewrite Forall_lookup in Hlater.
  (* nothing in this run happens for a table that was done before *)
  assert (Hnone : ∀ t, t ∈ done →
    (∀ j e', events (transfer_unit rules admits dry source u d) !! j = Some e'
             → event_table e' ≠ Some t)
    ∧ (∀ j e', trace (transfer_units rules admits dry source plan
                 (dest (transfer_unit rules admits dry source u d))) !! j = Some e'
             → event_table e' ≠ Some t)).
  { intros t Ht. split; intros j e' Hj Heq.
    - destruct (Hu _ _ Hj) as [Htab _]. rewrite Htab in Heq.
      injection Heq as <-. done.
    - destruct (Hlater _ _ Hj) as [(u' & Hu' & Htab) _]. rewrite Htab in Heq.
      injection Heq as <-.
      apply (respects_from_fresh _ _ _ Hrest Hu'). by apply list_elem_of_further. }
  (* an event of the first unit is about the first unit *)
  assert (Hfirst : ∀ j e', events (transfer_unit rules admits dry source u d) !! j
                           = Some e' → event_table e' = Some (table T) → T = u).
  { intros j e' Hj Heq. destruct (Hu _ _ Hj) as [Htab _].
    rewrite Htab in Heq. injection Heq as Heq.
    apply elem_of_cons in HT as [->|HT]; [done|].
    by destruct (Hother _ HT). }
  cbn [transfer_units] in *.
  destruct (fatal (transfer_unit rules admits dry source u d)) eqn:Hfatal;
    cbn [trace] in *.
  - (* the run stops within the first unit *)
    assert (T = u) as -> by eauto.
    split; [left; auto|].
    intros j e' Hj Heq. destruct (Hnone P (Hpre _ HP)) as [Hno _].
    by destruct (Hno _ _ Hj).
  - apply lookup_app_Some in Hi as [Hi|[Hlen Hi]].
    + assert (T = u) as -> by eauto.
      split; [left; auto|].
      intros j e' Hj Heq. destruct (Hnone P (Hpre _ HP)) as [Hno1 Hno2].
      apply lookup_app_Some in Hj as [Hj|[_ Hj]];
        [by destruct (Hno1 _ _ Hj) | by destruct (Hno2 _ _ Hj)].
    + (* the event belongs to a later unit *)
      assert (HT' : T ∈ plan).
      { apply elem_of_cons in HT as [->|HT]; [|done].
        destruct (Hlater _ _ Hi) as [(u' & Hu' & Htab) _].
        rewrite Htab in He. injection He as He. by destruct (Hother _ Hu'). }
      destruct (IH _ _ _ Hrest HT' HP Hi He) as [Hbefore Hafter].
      split.
      * destruct Hbefore as [[->|Hdone]%elem_of_cons|(j & Hj & Hc)].
        -- right. destruct (transfer_unit_completed _ _ _ _ Hfatal) as [j Hj].
           exists j. split.
           ++ apply lookup_lt_Some in Hj. lia.
           ++ by apply lookup_app_l_Some.
        -- by left.
        -- right. exists (length (events (transfer_unit rules admits dry source u d)) + j).
           split; [lia|]. rewrite lookup_app_r by lia.
           by replace (_ + j - _) with j by lia.
      * intros j e' Hj Heq.
        apply lookup_app_Some in Hj as [Hj|[Hlen' Hj]].
        -- apply lookup_lt_Some in Hj. lia.
        -- specialize (Hafter _ _ Hj Heq). lia.
Qed.

End Engine.

(** C1, as amended.  A dry run performs the reads and the mapping of a real
    run and issues no insert: the destination handle, and with it every
    table's row count, is what it was.  Its report gives per table an inserted
    count of 0 and the mapper's warning and rejection counts.  Against a real
    run over a connection that is never lost, the warning counts agree, the
    real run stops where the dry run stops, and the real rejection counts can
    only be larger (by the rows the destination turns away). *)
Theorem dry_run_writes_nothing_and_previews (rules : MappingRules)
    (admits : Constraints) (plan : list TransferUnit) (source : SourceHandle)
    (d : DestinationHandle) (v : bool) :
  let dry := run_plan rules admits plan source d {| dryRun := true; verbose := v |} in
  let real := run_plan rules admits plan source {| tables := tables d; link := None |}
                {| dryRun := false; verbose := v |} in
  destination dry = d
  ∧ (∀ t, row_count (destination dry) t = row_count d t)
  ∧ Forall (λ e, is_insert e = false) (trace dry)
  ∧ filter (λ e, is_insert e = false) (trace real) = trace dry
  ∧ report dry = preview rules source plan
  ∧ Forall (λ s, inserted s.2 = 0) (sections (report dry))
  ∧ aborted (report real) = aborted (report dry)
  ∧ Forall2 previews (sections (report dry)) (sections (report real)).
Proof.
  cbv zeta. unfold run_plan. cbn [dryRun report destination trace].
  destruct (transfer_units_dry rules admits source plan d) as (Hd & Hr & Ht).
  destruct (transfer_units_connected rules admits source plan
              {| tables := tables d; link := None |} eq_refl)
    as (_ & Ha & Hs & He).
  destruct (transfer_units_dry_any rules admits source plan d
              {| tables := tables d; link := None |}) as (Ht' & Hr').
  split_and!.
  - done.
  - intros t. by rewrite Hd.
  - apply Forall_app. split; [done | by repeat constructor].
  - rewrite filter_app, He, Ht'. done.
  - done.
  - rewrite Hr. apply preview_inserts_nothing.
  - by rewrite Hr'.
  - by rewrite Hr'.
Qed.

(** C1 as stated fails on the specification's own scenario: the dry run
    reports no insert for the parts table, where the real run reports three,
    so the dry run's report does not give the counts of the real run. *)
Lemma dry_run_report_is_not_the_real_report :
  let dry := run scenario_rules unconstrained scenario_source empty_destination
               {| dryRun := true; verbose := false |} in
  let real := run scenario_rules unconstrained scenario_source empty_destination
                {| dryRun := false; verbose := false |} in
  row_count (destination dry) "parts" = 0
  ∧ row_count (destination real) "parts" = 3
  ∧ section_of "parts" (report dry) = [tally 0 1 0]
  ∧ section_of "parts" (report real) = [tally 3 1 0]
  ∧ report dry ≠ report real.
Proof.
  cbv zeta. split_and!; [by vm_compute..|].
  intros H. apply (f_equal (section_of "parts")) in H. vm_compute in H. discriminate.
Qed.

(** *** Running again *)

Section Rerun.
Context (rules : MappingRules).

Lemma rows_of_insert (ts : gmap string (list DestRow)) dt l t :
  rows_of (<[dt := l]> ts) t = if decide (dt = t) then l else rows_of ts t.
Proof. unfold rows_of. rewrite lookup_insert. by case_decide. Qed.

Lemma writable_cons t row rows :
  writable rules t (row :: rows)
  = match status (map_row rules t row) with
    | Rejected => writable rules t rows
    | _ => (natural_key (map_row rules t row), payload (map_row rules t row))
           :: writable rules t rows
    end.
Proof.
  unfold writable. cbn [fmap list_fmap]. rewrite filter_cons.
  destruct (status (map_row rules t row)); by case_decide.
Qed.

(** **** A destination without constraints *)

Lemma transfer_rows_unconstrained t dt rows ts :
  let p := transfer_rows rules unconstrained false t dt rows
             {| tables := ts; link := None |} in
  fatal p = false
  ∧ link (dest p) = None
  ∧ counts p = counts_if_taken rules t rows
  ∧ ∀ x, rows_of (tables (dest p)) x
         = rows_of ts x ++ (if decide (dt = x) then writable rules t rows else []).
Proof.
  cbv zeta. revert ts. induction rows as [|row rows IH]; intros ts.
  { split_and!; try done. intros x. case_decide; by rewrite app_nil_r. }
  cbn [transfer_rows]. unfold counts_if_taken.
  rewrite mapping_counts_cons, writable_cons.
  destruct (status (map_row rules t row)) eqn:Hs;
    try (rewrite insert_row_connected by done;
         change (unconstrained _ _ _) with true; cbv iota; cbn [tables]);
    match goal with
    | |- context [transfer_rows _ _ _ _ _ _ {| tables := ?ts'; link := None |}] =>
        destruct (IH ts') as (Hf & Hl & Hc & Hrows)
    end;
    cbn [after fatal dest counts]; rewrite Hc; unfold counts_if_taken;
    (split_and!; [done | done | reflexivity |]);
    intros x; rewrite Hrows, ?rows_of_insert;
    destruct (decide (dt = x)) as [->|]; by rewrite <- ?app_assoc.
Qed.

Lemma transfer_unit_unconstrained u (rows : string → list SourceRow) ts :
  let p := transfer_unit rules unconstrained false (λ t, Some (rows t)) u
             {| tables := ts; link := None |} in
  fatal p = false
  ∧ counts p = counts_if_taken rules (table u) (rows (table u))
  ∧ ∃ ts', dest p = {| tables := ts'; link := None |}
           ∧ ∀ x, rows_of ts' x
                  = rows_of ts x ++ (if decide (dest_table u = x)
                                     then writable rules (table u) (rows (table u))
                                     else []).
Proof.
  cbv zeta. unfold transfer_unit.
  destruct (transfer_rows_unconstrained (table u) (dest_table u) (rows (table u)) ts)
    as (Hf & Hl & Hc & Hrows).
  cbn [fatal dest counts]. split_and!; [done..|].
  destruct (dest _) as [ts' l]. cbn [link tables] in *. subst l. by exists ts'.
Qed.

(** Without constraints a run appends, table by table, every record the
    mapper did not reject, whatever the tables held before. *)
Lemma transfer_units_unconstrained plan (rows : string → list SourceRow) ts :
  let o := transfer_units rules unconstrained false (λ t, Some (rows t)) plan
             {| tables := ts; link := None |} in
  report o
  = {| sections := (λ u, (table u, counts_if_taken rules (table u) (rows (table u))))
                   <$> plan;
       aborted := false |}
  ∧ ∃ ts', destination o = {| tables := ts'; link := None |}
           ∧ ∀ x, rows_of ts' x = rows_of ts x ++ written_into rules plan rows x.
Proof.
  cbv zeta. revert ts. induction plan as [|u plan IH]; intros ts.
  { split; [done|]. exists ts. split; [done|]. intros x.
    unfold written_into. cbn [flat_map]. by rewrite app_nil_r. }
  cbn [transfer_units].
  destruct (transfer_unit_unconstrained u rows ts) as (Hf & Hc & ts1 & Hd & Hrows1).
  rewrite Hf, Hc, Hd.
  destruct (IH ts1) as (Hr & ts2 & Hd2 & Hrows2).
  cbn [report destination]. rewrite Hr, Hd2. cbn [sections aborted].
  split; [done|]. exists ts2. split; [done|].
  intros x. rewrite Hrows2, Hrows1. unfold written_into. cbn [flat_map].
  by rewrite <- app_assoc.
Qed.

(** **** A destination that enforces unique natural keys *)

(** Rows are only ever added. *)
Lemma insert_row_grows admits t row d k x :
  k ∈ keys (tables d) x → k ∈ keys (tables (insert_row admits t row d).2) x.
Proof.
  unfold insert_row, keys.
  destruct (link d) as [[|n]|]; [done|..]; destruct (admits _ _ _); cbn [snd tables];
    rewrite ?rows_of_insert; try done;
    case_decide; subst; rewrite ?fmap_app, ?elem_of_app; auto.
Qed.

Lemma transfer_rows_grows admits dry t dt rows d k x :
  k ∈ keys (tables d) x →
  k ∈ keys (tables (dest (transfer_rows rules admits dry t dt rows d))) x.
Proof.
  revert d. induction rows as [|row rows IH]; intros d Hk; [done|].
  cbn [transfer_rows].
  pose proof (insert_row_grows admits dt
                (natural_key (map_row rules t row), payload (map_row rules t row))
                d k x Hk) as Hk'.
  destruct (status (map_row rules t row));
    try (destruct dry; [|destruct (insert_row admits dt _ d) as [[] d']]);
    cbn [after dest snd] in *; auto.
Qed.

Lemma transfer_units_grows admits dry source plan d k x :
  k ∈ keys (tables d) x →
  k ∈ keys (tables (destination (transfer_units rules admits dry source plan d))) x.
Proof.
  revert d. induction plan as [|u plan IH]; intros d Hk; [done|].
  cbn [transfer_units].
  assert (Hu : k ∈ keys (tables (dest (transfer_unit rules admits dry source u d))) x).
  { unfold transfer_unit. destruct (source (table u)); cbn [dest]; [|done].
    by apply transfer_rows_grows. }
  destruct (fatal _); cbn [destination]; auto.
Qed.


(** After a table's rows went through, the key of each record that was
    written or turned away as a duplicate is in the table. *)
Lemma transfer_rows_unique_keys t dt rows d :
  link d = None →
  keys_present rules t dt rows
    (tables (dest (transfer_rows rules unique_natural_key false t dt rows d))).
Proof.
  revert d. induction rows as [|row rows IH]; intros d Hl row' Hin Hst.
  { by apply elem_of_nil in Hin. }
  cbn [transfer_rows].
  set (r := map_row rules t row) in *.
  assert (Hstep : status r ≠ Rejected →
    link (insert_row unique_natural_key dt (natural_key r, payload r) d).2 = None
    ∧ natural_key r
      ∈ keys (tables (insert_row unique_natural_key dt (natural_key r, payload r) d).2) dt).
  { intros _. rewrite insert_row_connected by done.
    destruct (unique_natural_key (tables d) dt (natural_key r, payload r)) eqn:Hu;
      cbn [snd link tables]; (split; [done|]); unfold keys.
    - rewrite rows_of_insert, decide_True by done.
      rewrite fmap_app, elem_of_app. right. cbn. apply list_elem_of_here.
    - unfold unique_natural_key in Hu. apply bool_decide_eq_false in Hu.
      cbn [fst] in Hu. by apply dec_stable in Hu. }
  destruct (status r) eqn:Hs;
    try (destruct Hstep as [Hl' Hk]; [done|];
         destruct (insert_row unique_natural_key dt _ d) as [[] d'] eqn:Hins;
         cbn [snd] in *;
         [ | | by rewrite insert_row_connected in Hins by done;
                 destruct (unique_natural_key _ _ _) ]);
    cbn [after dest];
    (apply elem_of_cons in Hin as [->|Hin];
     [ fold r in Hst |- *; try (by apply transfer_rows_grows); by rewrite Hs in Hst
     | by apply IH ]).
Qed.

(** When the keys are already there, every write is turned away and the
    destination stays as it is. *)
Lemma transfer_rows_unique_again t dt rows ts :
  keys_present rules t dt rows ts →
  let p := transfer_rows rules unique_natural_key false t dt rows
             {| tables := ts; link := None |} in
  fatal p = false
  ∧ dest p = {| tables := ts; link := None |}
  ∧ counts p = counts_if_refused rules t rows
  ∧ all_refused (events p).
Proof.
  cbv zeta. induction rows as [|row rows IH]; intros Hkeys.
  { split_and!; try done. constructor. }
  destruct IH as (Hf & Hd & Hc & He).
  { intros row' Hin. apply Hkeys. by apply list_elem_of_further. }
  specialize (Hkeys row (list_elem_of_here _ _)).
  cbn [transfer_rows]. unfold counts_if_refused. rewrite mapping_counts_cons.
  assert (Hu : status (map_row rules t row) ≠ Rejected →
    unique_natural_key ts dt
      (natural_key (map_row rules t row), payload (map_row rules t row)) = false).
  { intros Hst. apply bool_decide_eq_false_2. intros Hn. by apply Hn, Hkeys. }
  destruct (status (map_row rules t row)) eqn:Hs;
    try (rewrite insert_row_connected by done; cbn [tables];
         rewrite Hu by done);
    cbn [after fatal dest counts events app]; rewrite Hc;
    (split_and!; [done | done | reflexivity |]);
    repeat (apply Forall_cons_2; [by intros ? ? ? [= <- <- <-] || done|]);
    exact He.
Qed.

Lemma transfer_units_unique_keys plan (rows : string → list SourceRow) d :
  link d = None →
  let o := transfer_units rules unique_natural_key false (λ t, Some (rows t)) plan d in
  link (destination o) = None
  ∧ plan_keys_present rules plan rows (tables (destination o)).
Proof.
  cbv zeta. revert d. induction plan as [|u plan IH]; intros d Hl.
  { split; [done|]. intros u Hu. by apply elem_of_nil in Hu. }
  cbn [transfer_units].
  destruct (transfer_unit_connected rules unique_natural_key
              (λ t, Some (rows t)) u d (rows (table u)) Hl eq_refl)
    as (Hf & Hl' & _).
  rewrite Hf. cbn [destination].
  destruct (IH _ Hl') as [Hl2 Hkeys]. split; [done|].
  intros u' [->|Hu']%elem_of_cons; [|by apply Hkeys].
  intros row Hin Hst. apply transfer_units_grows.
  unfold transfer_unit. cbn [dest].
  by apply transfer_rows_unique_keys.
Qed.

Lemma transfer_units_unique_again plan (rows : string → list SourceRow) ts :
  plan_keys_present rules plan rows ts →
  let o := transfer_units rules unique_natural_key false (λ t, Some (rows t)) plan
             {| tables := ts; link := None |} in
  destination o = {| tables := ts; link := None |}
  ∧ report o
    = {| sections := (λ u, (table u, counts_if_refused rules (table u) (rows (table u))))
                     <$> plan;
         aborted := false |}
  ∧ all_refused (trace o).
Proof.
  cbv zeta. induction plan as [|u plan IH]; intros Hkeys.
  { split_and!; try done. constructor. }
  destruct IH as (Hd & Hr & He).
  { intros u' Hu'. apply Hkeys. by apply list_elem_of_further. }
  destruct (transfer_rows_unique_again (table u) (dest_table u) (rows (table u)) ts)
    as (Hf1 & Hd1 & Hc1 & He1).
  { apply Hkeys. apply list_elem_of_here. }
  cbn [transfer_units]. unfold transfer_unit.
  cbn [fatal dest counts events]. rewrite Hf1, Hd1, Hc1, Hd, Hr.
  cbn [report destination trace sections aborted].
  split_and!; [done..|].
  unfold all_refused. rewrite !app_comm_cons. apply Forall_app. split; [|done].
  repeat (apply Forall_cons_2; [done|]).
  apply Forall_app. split; [done|]. by repeat constructor.
Qed.

End Rerun.

(** C2.  In a run over a plan that respects the dependencies, for a unit T
    and a predecessor P of T: every insert issued for P comes before every
    insert issued for T, and when T starts, P has already completed. *)
Theorem predecessors_are_transferred_first (rules : MappingRules)
    (admits : Constraints) (plan : list TransferUnit) (source : SourceHandle)
    (d : DestinationHandle) (options : Options) (T : TransferUnit) (P : string) :
  dependency_respecting plan = true →
  T ∈ plan →
  P ∈ predecessors T →
  let tr := trace (run_plan rules admits plan source d options) in
  (∀ i j r o r' o',
     tr !! i = Some (InsertIssued (table T) r o) →
     tr !! j = Some (InsertIssued P r' o') → j < i)
  ∧ (∀ i, tr !! i = Some (UnitStarted (table T)) →
          ∃ j, j < i ∧ tr !! j = Some (UnitCompleted P)).
Proof.
  intros Hplan HT HP. cbv zeta. unfold run_plan. cbn [trace].
  set (o := transfer_units rules admits (dryRun options) source plan d).
  assert (Hin : ∀ i e, (trace o ++ [ReportWritten]) !! i = Some e →
                       e ≠ ReportWritten → trace o !! i = Some e).
  { intros i e [Hi|[_ Hi]]%lookup_app_Some He; [done|].
    apply list_lookup_singleton_Some in Hi as [_ <-]. done. }
  split.
  - intros i j r o1 r' o2 Hi%Hin Hj%Hin; [|done..].
    destruct (transfer_units_ordered rules admits (dryRun options) source
                [] plan d T P i _ Hplan HT HP Hi eq_refl) as [_ Hafter].
    by apply (Hafter j _ Hj).
  - intros i Hi%Hin; [|done].
    destruct (transfer_units_ordered rules admits (dryRun options) source
                [] plan d T P i _ Hplan HT HP Hi eq_refl)
      as [[Hnil|(j & Hj & Hc)] _].
    + by apply elem_of_nil in Hnil.
    + exists j. split; [done|]. by apply lookup_app_l_Some.
Qed.

(** The fixed plan respects the dependencies; in a real run of it over a
    store with a category and three parts, the category is inserted before
    any part, and its unit has completed when the parts unit starts. *)
Lemma predecessors_are_transferred_first_witness :
  dependency_respecting TRANSFER_PLAN = true
  ∧ unit_for "parts" ["part_categories"] ∈ TRANSFER_PLAN
  ∧ let tr := trace (run scenario_rules unconstrained cutover_source
                       empty_destination {| dryRun := false; verbose := false |}) in
    (∀ i j r o r' o',
       tr !! i = Some (InsertIssued "parts" r o) →
       tr !! j = Some (InsertIssued "part_categories" r' o') → j < i)
    ∧ (∀ i, tr !! i = Some (UnitStarted "parts") →
            ∃ j, j < i ∧ tr !! j = Some (UnitCompleted "part_categories")).
Proof.
  assert (Hin : unit_for "parts" ["part_categories"] ∈ TRANSFER_PLAN).
  { do 2 apply list_elem_of_further. apply list_elem_of_here. }
  split; [reflexivity|]. split; [exact Hin|].
  apply (predecessors_are_transferred_first scenario_rules unconstrained
           TRANSFER_PLAN cutover_source empty_destination
           {| dryRun := false; verbose := false |}
           (unit_for "parts" ["part_categories"]) "part_categories").
  - reflexivity.
  - exact Hin.
  - apply list_elem_of_here.
Defined.

(** C3.  A source row whose primary key is missing is mapped to a record
    with status rejected; no record with status rejected is ever the subject
    of an insert, so no insert is issued for that record in any run. *)
Theorem missing_key_is_rejected_and_never_written (rules : MappingRules)
    (admits : Constraints) (plan : list TransferUnit) (source : SourceHandle)
    (d : DestinationHandle) (options : Options) (t : string) (row : SourceRow) :
  primary_key row = None →
  status (map_row rules t row) = Rejected
  ∧ (∀ t' r o, InsertIssued t' r o ∈ trace (run_plan rules admits plan source d options)
               → status r ≠ Rejected)
  ∧ (∀ t' o, InsertIssued t' (map_row rules t row) o
             ∉ trace (run_plan rules admits plan source d options)).
Proof.
  intros Hkey.
  assert (Hrej : status (map_row rules t row) = Rejected).
  { unfold map_row. cbn [status]. by rewrite Hkey. }
  assert (Hwritten : ∀ t' r o,
    InsertIssued t' r o ∈ trace (run_plan rules admits plan source d options)
    → status r ≠ Rejected).
  { intros t' r o. unfold run_plan. cbn [trace].
    intros [Hin|Hin]%elem_of_app.
    - pose proof (transfer_units_events rules admits (dryRun options) source plan d)
        as Hall.
      rewrite Forall_forall in Hall. destruct (Hall _ Hin) as [_ Hw]. eauto.
    - apply list_elem_of_singleton in Hin. discriminate. }
  split_and!; [done..|].
  intros t' o Hin. by apply (Hwritten _ _ _ Hin).
Qed.

(** With a keyless row ahead of the scenario's parts, the real run rejects
    that row, writes the three others and issues no insert for it. *)
Lemma missing_key_is_rejected_and_never_written_witness :
  primary_key keyless_row = None
  ∧ status (map_row scenario_rules "parts" keyless_row) = Rejected
  ∧ section_of "parts"
      (report (run scenario_rules unconstrained keyless_source empty_destination
                 {| dryRun := false; verbose := false |}))
    = [tally 3 1 1]
  ∧ (∀ t' o, InsertIssued t' (map_row scenario_rules "parts" keyless_row) o
             ∉ trace (run scenario_rules unconstrained keyless_source
                        empty_destination {| dryRun := false; verbose := false |})).
Proof.
  destruct (missing_key_is_rejected_and_never_written scenario_rules unconstrained
              TRANSFER_PLAN keyless_source empty_destination
              {| dryRun := false; verbose := false |} "parts" keyless_row eq_refl)
    as (Hrej & _ & Hnever).
  split; [reflexivity|]. split; [exact Hrej|]. split; [by vm_compute|exact Hnever].
Defined.

(** C5.  Running again performs the same inserts again: a run appends to each
    table the records the mapper did not reject, whatever the table holds,
    with no comparison of natural keys.  On a destination without
    constraints a second run over the same source therefore leaves every
    written row twice and reports the same counts again, so the destination
    is not the one the first run left whenever anything was written.  On a
    destination that enforces unique natural keys the second run changes
    nothing: every insert it issues is turned away and its report counts
    every row of every table as rejected and none as inserted. *)
Theorem rerun_duplicates_unless_unique (rules : MappingRules)
    (plan : list TransferUnit) (rows : string → list SourceRow)
    (ts : gmap string (list DestRow)) (v : bool) :
  let source : SourceHandle := λ t, Some (rows t) in
  let d0 := {| tables := ts; link := None |} in
  let real := {| dryRun := false; verbose := v |} in
  (let first := run_plan rules unconstrained plan source d0 real in
   let second := run_plan rules unconstrained plan source (destination first) real in
   (∀ t, rows_of (tables (destination first)) t
         = rows_of ts t ++ written_into rules plan rows t)
   ∧ (∀ t, rows_of (tables (destination second)) t
           = rows_of ts t ++ written_into rules plan rows t
                          ++ written_into rules plan rows t)
   ∧ (∀ t, row_count (destination second) t
           = row_count (destination first) t
             + length (written_into rules plan rows t))
   ∧ report second = report first
   ∧ (∀ t, written_into rules plan rows t ≠ [] →
           destination second ≠ destination first))
  ∧ (let first := run_plan rules unique_natural_key plan source d0 real in
     let second := run_plan rules unique_natural_key plan source
                     (destination first) real in
     destination second = destination first
     ∧ report second
       = {| sections :=
              (λ u, (table u, counts_if_refused rules (table u) (rows (table u))))
              <$> plan;
            aborted := false |}
     ∧ all_refused (trace second)).
Proof.
  cbv zeta. unfold run_plan. cbn [dryRun report destination trace]. split.
  - destruct (transfer_units_unconstrained rules plan rows ts)
      as (Hr1 & ts1 & Hd1 & Hrows1).
    rewrite Hd1, Hr1.
    destruct (transfer_units_unconstrained rules plan rows ts1)
      as (Hr2 & ts2 & Hd2 & Hrows2).
    rewrite Hd2, Hr2. cbn [tables]. unfold row_count. cbn [tables].
    split_and!; try done.
    + intros t. by rewrite Hrows2, Hrows1, app_assoc.
    + intros t. by rewrite Hrows2, length_app.
    + intros t Hw [= Heq]. specialize (Hrows2 t). rewrite Heq in Hrows2.
      apply (f_equal length) in Hrows2. rewrite length_app in Hrows2.
      destruct (written_into rules plan rows t); [done|]. cbn in Hrows2. lia.
  - destruct (transfer_units_unique_keys rules plan rows
                {| tables := ts; link := None |} eq_refl) as [Hl Hkeys].
    destruct (destination _) as [ts1 l]. cbn [link tables] in *. subst l.
    destruct (transfer_units_unique_again rules plan rows ts1 Hkeys)
      as (Hd & Hr & He).
    split_and!; [done..|].
    apply Forall_app. split; [done|]. by repeat constructor.
Qed.

(** On the scenario: without constraints two runs leave six parts and report
    three inserts each time; with unique keys the second run leaves the three
    parts of the first and reports them all as rejected. *)
Lemma rerun_duplicates_unless_unique_witness :
  let real := {| dryRun := false; verbose := false |} in
  (let first := run scenario_rules unconstrained scenario_source
                  empty_destination real in
   let second := run scenario_rules unconstrained scenario_source
                   (destination first) real in
   row_count (destination first) "parts" = 3
   ∧ row_count (destination second) "parts" = 6
   ∧ section_of "parts" (report second) = [tally 3 1 0]
   ∧ destination second ≠ destination first)
  ∧ (let first := run scenario_rules unique_natural_key scenario_source
                    empty_destination real in
     let second := run scenario_rules unique_natural_key scenario_source
                     (destination first) real in
     row_count (destination first) "parts" = 3
     ∧ row_count (destination second) "parts" = 3
     ∧ section_of "parts" (report second) = [tally 0 1 3]
     ∧ destination second = destination first).
Proof.
  cbv zeta.
  destruct (rerun_duplicates_unless_unique scenario_rules TRANSFER_PLAN
              scenario_rows ∅ false) as [(_ & _ & _ & _ & Hne) (Heq & _ & _)].
  split.
  - split_and!; [by vm_compute..|]. by apply (Hne "parts").
  - split_and!; [by vm_compute..|]. exact Heq.
Defined.

End TransferFacts.

(** ** Broadcaster *)

Module BroadcasterFacts.
Import Broadcaster.

Lemma handles_unsubscribe h h' r :
  h' ∈ handles (unsubscribe h r) ↔ h' ∈ handles r ∧ h' ≠ h.
Proof.
  unfold handles, unsubscribe. cbn [subscribers].
  rewrite !list_elem_of_fmap. split.
  - intros (s & -> & [Hne Hs]%list_elem_of_filter). eauto.
  - intros [(s & -> & Hs) Hne]. exists s. split; [done|].
    by apply list_elem_of_filter.
Qed.

Lemma deliver_next_handle wire event targets r :
  next_handle (deliver wire event targets r).1 = next_handle r.
Proof.
  revert r. induction targets as [|s targets IH]; intros r; [done|].
  cbn [deliver]. destruct (wire (connection s) event).
  - specialize (IH r). by destruct (deliver wire event targets r).
  - specialize (IH (unsubscribe (handle s) r)).
    by destruct (deliver wire event targets (unsubscribe (handle s) r)).
Qed.

(** Each target is attempted once, in order, and the outcome of an attempt
    is that of its own connection. *)
Lemma deliver_log wire event targets r :
  (deliver wire event targets r).2
  = (λ s, (handle s, wire (connection s) event)) <$> targets.
Proof.
  revert r. induction targets as [|s targets IH]; intros r; [done|].
  cbn [deliver fmap list_fmap]. destruct (wire (connection s) event).
  - specialize (IH r). destruct (deliver wire event targets r).
    cbn [snd] in *. by rewrite IH.
  - specialize (IH (unsubscribe (handle s) r)).
    destruct (deliver wire event targets (unsubscribe (handle s) r)).
    cbn [snd] in *. by rewrite IH.
Qed.

(** The registry after delivery holds exactly the handles it held before
    that did not fault. *)
Lemma deliver_handles wire event targets r h :
  h ∈ handles (deliver wire event targets r).1
  ↔ h ∈ handles r
    ∧ (h, SubscriberDeliveryFault) ∉ (deliver wire event targets r).2.
Proof.
  revert r. induction targets as [|s targets IH]; intros r.
  { cbn [deliver fst snd]. split; [|by intros []].
    intros Hh. split; [done|]. by intros ?%elem_of_nil. }
  cbn [deliver]. destruct (wire (connection s) event) eqn:Hw.
  - specialize (IH r). destruct (deliver wire event targets r) as [r' log].
    cbn [fst snd] in *. rewrite IH, not_elem_of_cons.
    intuition discriminate.
  - specialize (IH (unsubscribe (handle s) r)).
    destruct (deliver wire event targets (unsubscribe (handle s) r)) as [r' log].
    cbn [fst snd] in *. rewrite IH, handles_unsubscribe, not_elem_of_cons.
    intuition congruence.
Qed.

Lemma step_next_handle op r : next_handle r ≤ next_handle (step op r).1.
Proof.
  destruct op as [conn who now|h|wire event]; cbn [step fst subscribe snd next_handle
    unsubscribe]; try lia.
  unfold publish. rewrite deliver_next_handle. lia.
Qed.

(** Only a subscription adds a handle, and the handle it adds is new. *)
Lemma step_handles op r h :
  h ∈ handles (step op r).1 →
  h ∈ handles r
  ∨ (h = next_handle r ∧ next_handle (step op r).1 = S (next_handle r)).
Proof.
  destruct op as [conn who now|h'|wire event]; cbn [step fst snd subscribe].
  - unfold handles. cbn [subscribers next_handle].
    rewrite fmap_app, elem_of_app.
    intros [Hh|Hh]; [by left|]. right. by apply list_elem_of_singleton in Hh.
  - rewrite handles_unsubscribe. intros [Hh _]. by left.
  - unfold publish. rewrite deliver_handles. intros [Hh _]. by left.
Qed.

(** Delivery is only ever attempted to registered handles. *)
Lemma step_attempts op r h outcome :
  (h, outcome) ∈ (step op r).2 → h ∈ handles r.
Proof.
  destruct op as [conn who now|h'|wire event]; cbn [step snd];
    [by intros ?%elem_of_nil..|].
  unfold publish. rewrite deliver_log. unfold handles.
  rewrite !list_elem_of_fmap. intros (s & [= -> _] & Hs). eauto.
Qed.

Lemma step_well_formed op r : well_formed r → well_formed (step op r).1.
Proof.
  intros Hwf h Hh. pose proof (step_next_handle op r) as Hnext.
  apply step_handles in Hh as [Hh|[-> Hh]].
  - specialize (Hwf h Hh). lia.
  - lia.
Qed.

Lemma run_ops_well_formed ops r : well_formed r → well_formed (run_ops ops r).1.
Proof.
  revert r. induction ops as [|op ops IH]; intros r Hwf; [done|].
  cbn [run_ops]. pose proof (step_well_formed op r Hwf) as Hwf'.
  destruct (step op r) as [r1 log1]. specialize (IH r1 Hwf').
  by destruct (run_ops ops r1).
Qed.

(** A spent handle stays spent, and no delivery to it is attempted. *)
Lemma step_spent op r h :
  spent h r → spent h (step op r).1 ∧ ∀ outcome, (h, outcome) ∉ (step op r).2.
Proof.
  intros [Hlt Hout]. pose proof (step_next_handle op r) as Hnext. split.
  - split; [lia|]. intros [Hh|[-> _]]%step_handles; [done|lia].
  - intros outcome Hin. by apply step_attempts in Hin.
Qed.

Lemma run_ops_spent ops r h :
  spent h r → ∀ outcome, (h, outcome) ∉ (run_ops ops r).2.
Proof.
  revert r. induction ops as [|op ops IH]; intros r Hspent outcome.
  { by intros ?%elem_of_nil. }
  cbn [run_ops]. destruct (step_spent op r h Hspent) as [Hspent' Hnone].
  destruct (step op r) as [r1 log1]. specialize (IH r1 Hspent' outcome).
  destruct (run_ops ops r1) as [r2 log2]. cbn [fst snd] in *.
  rewrite elem_of_app. intros [Hin|Hin]; [by apply (Hnone outcome)|done].
Qed.

(** C4.  Whatever happened before, a publish attempts delivery to every
    subscriber registered at the time of the call, each attempt having the
    outcome of its own connection, so a fault of one does not keep the event
    from any other.  The subscribers whose delivery faulted are exactly the
    ones taken out of the registry, and whatever happens afterwards no
    delivery to any of them is attempted again. *)
Theorem publish_isolates_faults (before later : list Op) (wire : Wire)
    (event : ChangeEvent) :
  let r0 := (run_ops before empty_registry).1 in
  let r1 := (publish wire event r0).1 in
  let log := (publish wire event r0).2 in
  log = (λ s, (handle s, wire (connection s) event)) <$> subscribers r0
  ∧ (∀ h, (h, SubscriberDeliveryFault) ∈ log → h ∉ handles r1)
  ∧ (∀ h, h ∈ handles r0 → (h, SubscriberDeliveryFault) ∉ log → h ∈ handles r1)
  ∧ (∀ h, (h, SubscriberDeliveryFault) ∈ log →
          ∀ outcome, (h, outcome) ∉ (run_ops later r1).2).
Proof.
  cbv zeta. set (r0 := (run_ops before empty_registry).1).
  assert (Hwf : well_formed r0).
  { apply run_ops_well_formed. by intros h ?%elem_of_nil. }
  assert (Hgone : ∀ h, (h, SubscriberDeliveryFault) ∈ (publish wire event r0).2 →
                       h ∉ handles (publish wire event r0).1).
  { intros h Hin. unfold publish. rewrite deliver_handles. by intros [_ Hno]. }
  split_and!.
  - unfold publish. apply deliver_log.
  - exact Hgone.
  - intros h Hh Hno. unfold publish. by apply deliver_handles.
  - intros h Hin. apply run_ops_spent. split; [|by apply Hgone].
    unfold publish at 1. rewrite deliver_next_handle. apply Hwf.
    apply (step_attempts (Publish wire event) r0 h SubscriberDeliveryFault Hin).
Qed.

(** The fault of the second client keeps nothing from the first and the
    third; the second is gone from the registry and the later publish reaches
    the first, the third and the newcomer only. *)
Lemma publish_isolates_faults_witness :
  let r0 := (run_ops three_clients empty_registry).1 in
  let r1 := (publish second_closed task_updated r0).1 in
  (publish second_closed task_updated r0).2
  = [(0, Delivered); (1, SubscriberDeliveryFault); (2, Delivered)]
  ∧ handles r1 = [0; 2]
  ∧ (run_ops afterwards r1).2 = [(0, Delivered); (2, Delivered); (3, Delivered)]
  ∧ (∀ outcome, (1, outcome) ∉ (run_ops afterwards r1).2).
Proof.
  cbv zeta.
  destruct (publish_isolates_faults three_clients afterwards second_closed
              task_updated) as (Hlog & _ & _ & Hnever).
  split; [exact Hlog|]. split; [reflexivity|]. split; [reflexivity|].
  apply Hnever. rewrite Hlog.
  apply list_elem_of_further, list_elem_of_here.
Defined.

End BroadcasterFacts.


(** ** The worker over its lifetime *)

Module WorkerEventsFacts.
Import ServiceWorker WorkerEvents.

Lemma fetch_handler_hit net request s r :
  first_match request s = Some r →
  fetch_handler net request s = (Some r, s, [CachesMatch request]).
Proof.
  intros Hm. unfold fetch_handler, then_, caches_match, resolve. by rewrite Hm.
Qed.

Lemma fetch_handler_miss net request s :
  first_match request s = None →
  fetch_handler net request s
  = (net request, s, [CachesMatch request; Fetch request]).
Proof.
  intros Hm. unfold fetch_handler, then_, caches_match, fetch. by rewrite Hm.
Qed.

Lemma fetch_handler_storage net request s : (fetch_handler net request s).1.2 = s.
Proof.
  destruct (first_match request s) as [r|] eqn:Hm.
  - by rewrite (fetch_handler_hit _ _ _ _ Hm).
  - by rewrite (fetch_handler_miss _ _ _ Hm).
Qed.

(** The storage with the worker's cache opened. *)
Lemma install_handler_unfold net s :
  (install_handler net s).1
  = match fetch_all net PRECACHE with
    | Some entries =>
        (Some (), update_cache CACHE_NAME (put_all entries)
                    (caches_open CACHE_NAME s).1.2)
    | None => (None, (caches_open CACHE_NAME s).1.2)
    end.
Proof.
  unfold install_handler, then_, cache_addAll. cbn [caches_open fst snd].
  by destruct (fetch_all net PRECACHE).
Qed.

(** When all responses arrived, there is one entry per URL, in order, and
    each holds what the network answered for its URL. *)
Lemma fetch_all_Some net urls entries :
  fetch_all net urls = Some entries →
  entries.*1 = urls ∧ ∀ u r, (u, r) ∈ entries → net (GET u) = Some r.
Proof.
  revert entries. induction urls as [|u urls IH]; intros entries; cbn [fetch_all].
  { intros [= <-]. split; [done|]. by intros u r ?%elem_of_nil. }
  destruct (net (GET u)) as [r|] eqn:Hu; [|done].
  destruct (fetch_all net urls) as [rs|]; [|done].
  destruct (storable r); [|done]. intros [= <-].
  destruct (IH rs eq_refl) as [Hkeys Hrs]. split.
  - cbn. by rewrite Hkeys.
  - intros u' r' [[= -> ->]|Hin]%elem_of_cons; [done|]. by apply Hrs.
Qed.

Lemma put_all_cons e entries (c : Cache) :
  put_all (e :: entries) c = put_all entries (<[strip_fragment e.1 := e.2]> c).
Proof. done. Qed.

(** The precached URLs have no fragment. *)
Lemma strip_fragment_precached u : u ∈ PRECACHE → strip_fragment u = u.
Proof.
  unfold PRECACHE. intros [->|Hu]%elem_of_cons; [done|].
  by apply list_elem_of_singleton in Hu as ->.
Qed.

Lemma put_all_other entries (c : Cache) k :
  k ∉ strip_fragment <$> entries.*1 → put_all entries c !! k = c !! k.
Proof.
  revert c. induction entries as [|[u' r'] entries IH]; intros c Hk; [done|].
  cbn in Hk. apply not_elem_of_cons in Hk as [Hne Hk].
  rewrite put_all_cons, (IH _ Hk). cbn. by rewrite lookup_insert_ne.
Qed.

Lemma put_all_entry entries (c : Cache) u r :
  NoDup (strip_fragment <$> entries.*1) → (u, r) ∈ entries →
  put_all entries c !! strip_fragment u = Some r.
Proof.
  revert c. induction entries as [|[u' r'] entries IH]; intros c Hnd Hin.
  { by apply elem_of_nil in Hin. }
  cbn in Hnd. apply NoDup_cons in Hnd as [Hfresh Hnd].
  rewrite put_all_cons.
  apply elem_of_cons in Hin as [[= -> ->]|Hin].
  - rewrite (put_all_other _ _ _ Hfresh). cbn. apply lookup_insert_eq.
  - by apply IH.
Qed.

(** Storing entries over entries for the same URLs leaves only the later
    ones. *)
Lemma put_all_overwrites entries (c : Cache) u r :
  u ∈ entries.*1 →
  put_all entries (<[strip_fragment u := r]> c) = put_all entries c.
Proof.
  revert c. induction entries as [|[u' r'] entries IH]; intros c Hu.
  { by apply elem_of_nil in Hu. }
  rewrite !put_all_cons. cbn [fst snd].
  destruct (decide (strip_fragment u = strip_fragment u')) as [->|Hne].
  - by rewrite insert_insert_eq.
  - cbn in Hu. apply elem_of_cons in Hu as [->|Hu]; [done|].
    rewrite insert_insert_ne by done. by apply IH.
Qed.

Lemma put_all_absorbs earlier entries (c : Cache) :
  (∀ u, u ∈ earlier.*1 → u ∈ entries.*1) →
  put_all entries (put_all earlier c) = put_all entries c.
Proof.
  revert c. induction earlier as [|[u r] earlier IH]; intros c Hsub; [done|].
  rewrite (put_all_cons _ earlier). cbn [fst snd]. rewrite IH.
  - apply put_all_overwrites. apply Hsub. cbn. apply list_elem_of_here.
  - intros u' Hu'. apply Hsub. cbn. by apply list_elem_of_further.
Qed.

Lemma find_cache_elem s name c : find_cache s name = Some c → (name, c) ∈ s.
Proof.
  induction s as [|[n c'] s IH]; cbn [find_cache fst snd]; [done|].
  case_decide as Hn.
  - intros [= <-]. subst n. apply list_elem_of_here.
  - intros Hc. by apply list_elem_of_further, IH.
Qed.

Lemma caches_open_existing name s :
  is_Some (find_cache s name) → (caches_open name s).1.2 = s.
Proof. intros [c Hc]. unfold caches_open. cbn [fst snd]. by rewrite Hc. Qed.

Lemma caches_open_opens name s : is_Some (find_cache (caches_open name s).1.2 name).
Proof. rewrite ServiceWorkerFacts.find_cache_opened, decide_True by done. eauto. Qed.

Lemma update_cache_twice name f g s :
  update_cache name g (update_cache name f s) = update_cache name (g ∘ f) s.
Proof.
  unfold update_cache. rewrite <- list_fmap_compose. apply list_fmap_ext.
  intros i [n c] _. cbn. by repeat (case_decide; cbn in *).
Qed.

Lemma update_cache_ext name f g s :
  (∀ c, f c = g c) → update_cache name f s = update_cache name g s.
Proof.
  intros Hfg. unfold update_cache. apply list_fmap_ext.
  intros i [n c] _. cbn. case_decide; [by rewrite Hfg|done].
Qed.

(** What the storage holds for the worker's cache after an install. *)
Lemma after_install_opens net s : is_Some (find_cache (after_install net s) CACHE_NAME).
Proof.
  unfold after_install. rewrite install_handler_unfold.
  destruct (caches_open_opens CACHE_NAME s) as [c Hc].
  destruct (fetch_all net PRECACHE); cbn [snd]; [|eauto].
  rewrite ServiceWorkerFacts.find_cache_update_cache, decide_True by done.
  rewrite Hc. eauto.
Qed.

(** A request for a URL that the named cache holds and no other cache does
    finds what the named cache holds. *)
Lemma first_match_updated name f s u r :
  strip_fragment u = u →
  (∀ c, f c !! u = Some r) →
  (∀ c, c ∈ s → c.1 ≠ name → c.2 !! u = None) →
  is_Some (find_cache s name) →
  first_match (GET u) (update_cache name f s) = Some r.
Proof.
  intros Hu Hf. induction s as [|[n c] s IH]; intros Hother [c0 Hc0]; [done|].
  cbn [update_cache fmap list_fmap first_match fst snd] in *.
  unfold cache_match. cbn [method url GET]. rewrite decide_True, Hu by done.
  destruct (decide (n = name)) as [->|Hn]; cbn [snd].
  - by rewrite Hf.
  - pose proof (Hother (n, c) (list_elem_of_here _ _) Hn) as Hnone.
    cbn [snd] in Hnone. rewrite Hnone.
    cbn [find_cache fst snd] in Hc0. rewrite decide_False in Hc0 by done.
    apply IH; [|eauto].
    intros c' Hc'. apply Hother. by apply list_elem_of_further.
Qed.

(** X1.  Once the install has resolved, a request for either precached URL
    is answered from the cache and nothing else is called, whatever the
    network is like by then; and when no other cache of the origin held that
    URL, the answer is the response the network gave at install time. *)
Theorem precached_is_served_from_cache (net later : Network) (s : CacheStorage)
    (u : string) :
  install_resolved net s →
  u ∈ PRECACHE →
  ∃ r, fetch_handler later (GET u) (after_install net s)
       = (Some r, after_install net s, [CachesMatch (GET u)])
       ∧ ((∀ c, c ∈ s → c.1 ≠ CACHE_NAME → c.2 !! u = None) →
          net (GET u) = Some r).
Proof.
  unfold install_resolved, after_install. rewrite install_handler_unfold.
  destruct (fetch_all net PRECACHE) as [entries|] eqn:Hall; [|done].
  intros _ Hu. cbn [fst snd].
  destruct (fetch_all_Some _ _ _ Hall) as [Hkeys Hnet].
  assert (∃ r, (u, r) ∈ entries) as [r Hr].
  { rewrite <- Hkeys in Hu. apply list_elem_of_fmap in Hu as ([u' r] & -> & Hin).
    by exists r. }
  pose proof (strip_fragment_precached u Hu) as Hplain.
  assert (Hput : ∀ c : Cache, put_all entries c !! u = Some r).
  { intros c. rewrite <- Hplain. apply put_all_entry; [|done]. rewrite Hkeys.
    unfold PRECACHE. cbn. apply NoDup_cons. split; [|apply NoDup_singleton].
    by intros [=]%list_elem_of_singleton. }
  set (s' := update_cache CACHE_NAME (put_all entries) (caches_open CACHE_NAME s).1.2).
  destruct (caches_open_opens CACHE_NAME s) as [c0 Hc0].
  assert (Hfound : find_cache s' CACHE_NAME = Some (put_all entries c0)).
  { unfold s'. rewrite ServiceWorkerFacts.find_cache_update_cache.
    rewrite decide_True by done. by rewrite Hc0. }
  destruct (first_match (GET u) s') as [r'|] eqn:Hm.
  - exists r'. split; [by apply fetch_handler_hit|].
    intros Hother. rewrite (Hnet _ _ Hr). rewrite <- Hm. symmetry.
    apply first_match_updated; [done|done| |eauto].
    intros c Hc Hname. apply Hother; [|done].
    unfold caches_open in Hc. cbn [fst snd] in Hc.
    destruct (find_cache s CACHE_NAME); [done|].
    apply elem_of_app in Hc as [Hc|Hc]; [done|].
    apply list_elem_of_singleton in Hc. by subst c.
  - exfalso. rewrite ServiceWorkerFacts.first_match_None in Hm.
    specialize (Hm _ (find_cache_elem _ _ _ Hfound)).
    unfold cache_match in Hm. cbn [method url GET snd] in Hm.
    rewrite decide_True, Hplain in Hm by done. by rewrite Hput in Hm.
Qed.

(** Installed on a browser without caches, the worker answers a request for
    "/" with the response of install time although the network is down. *)
Lemma precached_is_served_from_cache_witness :
  install_resolved online []
  ∧ "/" ∈ PRECACHE
  ∧ ∃ r, fetch_handler offline (GET "/") (after_install online [])
         = (Some r, after_install online [], [CachesMatch (GET "/")])
         ∧ ((∀ c : string * Cache, c ∈ [] → c.1 ≠ CACHE_NAME → c.2 !! "/" = None) →
            online (GET "/") = Some r).
Proof.
  assert (Hin : "/" ∈ PRECACHE) by apply list_elem_of_here.
  split; [reflexivity|]. split; [exact Hin|].
  exact (precached_is_served_from_cache online offline [] "/" eq_refl Hin).
Defined.

(** X2.  Fetch events never change the cache storage, so each event of a
    sequence is answered as if it came alone: from the cache when the storage
    the sequence started with holds a match, from the network of its moment
    otherwise, however often the same request was fetched before. *)
Theorem fetch_events_never_cache (events : list (Network * Request))
    (s : CacheStorage) :
  dispatch_fetches events s
  = ((λ e, match first_match e.2 s with Some r => Some r | None => e.1 e.2 end)
       <$> events,
     s,
     flat_map (λ e, match first_match e.2 s with
                    | Some _ => [CachesMatch e.2]
                    | None => [CachesMatch e.2; Fetch e.2]
                    end) events).
Proof.
  induction events as [|[net request] events IH]; [done|].
  cbn [dispatch_fetches fst snd fmap list_fmap flat_map].
  destruct (first_match request s) as [r|] eqn:Hm.
  - rewrite (fetch_handler_hit _ _ _ _ Hm), IH. done.
  - rewrite (fetch_handler_miss _ _ _ Hm), IH. done.
Qed.

Lemma dispatch_fetches_cons e events s :
  dispatch_fetches (e :: events) s
  = ((fetch_handler e.1 e.2 s).1.1 :: (dispatch_fetches events s).1.1,
     (dispatch_fetches events s).1.2,
     (fetch_handler e.1 e.2 s).2 ++ (dispatch_fetches events s).2).
Proof.
  cbn [dispatch_fetches].
  pose proof (fetch_handler_storage e.1 e.2 s) as Hs.
  destruct (fetch_handler e.1 e.2 s) as [[answer s1] log1].
  cbn [fst snd] in *. subst s1.
  by destruct (dispatch_fetches events s) as [[answers s2] log2].
Qed.

(** On a browser that had no caches, the storage after the install holds
    nothing for a request that is not a GET for a precached URL. *)
Lemma fresh_install_misses net request :
  method request ≠ "GET" ∨ strip_fragment (url request) ∉ PRECACHE →
  first_match request (after_install net []) = None.
Proof.
  intros Hreq. unfold after_install. rewrite install_handler_unfold.
  unfold caches_open. cbn [find_cache fst snd app].
  assert (Hempty : cache_match request (∅ : Cache) = None).
  { unfold cache_match. by case_decide. }
  destruct (fetch_all net PRECACHE) as [entries|] eqn:Hall;
    cbn [snd update_cache fmap list_fmap first_match fst];
    [|by rewrite Hempty].
  rewrite decide_True by done. cbn [snd].
  destruct (fetch_all_Some _ _ _ Hall) as [Hkeys _].
  unfold cache_match. case_decide as Hget; [|done].
  destruct Hreq as [?|Hurl]; [done|].
  rewrite put_all_other; [done|]. by rewrite Hkeys.
Qed.

(** X3.  On a browser that had no caches when the worker was installed, only
    GET requests for the two precached URLs (with or without a fragment) are
    ever answered from the cache.  Every fetch event for any other request is
    passed to the network: its answer is what the network of its moment
    gives, and the calls of the whole sequence hold one fetch of the request
    per event that carried it, whether or not the install resolved. *)
Theorem only_precached_is_served_from_cache (net : Network)
    (events : list (Network * Request)) (request : Request) :
  method request ≠ "GET" ∨ strip_fragment (url request) ∉ PRECACHE →
  let out := dispatch_fetches events (after_install net []) in
  (∀ i later, events !! i = Some (later, request) →
              out.1.1 !! i = Some (later request))
  ∧ length (filter (λ c, c = Fetch request) out.2)
    = length (filter (λ e, e.2 = request) events).
Proof.
  intros Hreq. cbv zeta.
  pose proof (fresh_install_misses net request Hreq) as Hmiss.
  set (s := after_install net []) in *.
  induction events as [|e events [IHanswer IHcalls]].
  { split; [by intros i later ?|done]. }
  rewrite dispatch_fetches_cons. cbn [fst snd]. split.
  - intros i later Hi. rewrite lookup_cons in Hi. rewrite lookup_cons.
    destruct i as [|i]; [|by apply IHanswer].
    injection Hi as ->. cbn [fst snd].
    by rewrite (fetch_handler_miss _ _ _ Hmiss).
  - rewrite filter_app, length_app, filter_cons, IHcalls.
    destruct (decide (e.2 = request)) as [->|Hne].
    + rewrite (fetch_handler_miss _ _ _ Hmiss). cbn [snd].
      rewrite !filter_cons, filter_nil.
      rewrite decide_False by done. by rewrite decide_True.
    + assert (Hnone : filter (λ c, c = Fetch request) (fetch_handler e.1 e.2 s).2 = []).
      { destruct (first_match e.2 s) as [r|] eqn:Hm.
        - rewrite (fetch_handler_hit _ _ _ _ Hm). cbn [snd].
          rewrite filter_cons, filter_nil. by rewrite decide_False.
        - rewrite (fetch_handler_miss _ _ _ Hm). cbn [snd].
          rewrite !filter_cons, filter_nil.
          rewrite decide_False by done. rewrite decide_False; [done|].
          intros [= Heq]. by apply Hne. }
      by rewrite Hnone.
Qed.

(** After an install on a fresh browser, the parts list is fetched from the
    network each of the two times it is requested, and in between "/" is
    answered from the cache. *)
Lemma only_precached_is_served_from_cache_witness :
  (method (GET "/api/parts") ≠ "GET"
   ∨ strip_fragment (url (GET "/api/parts")) ∉ PRECACHE)
  ∧ let events := [ (online, GET "/api/parts"); (offline, GET "/");
                    (offline, GET "/api/parts") ] in
    let out := dispatch_fetches events (after_install online []) in
    out.1.1 = [ Some {| status := 200; body := "/api/parts" |};
                Some {| status := 200; body := "/" |};
                None ]
    ∧ (∀ i later, events !! i = Some (later, GET "/api/parts") →
                  out.1.1 !! i = Some (later (GET "/api/parts")))
    ∧ length (filter (λ c, c = Fetch (GET "/api/parts")) out.2) = 2.
Proof.
  assert (Hreq : method (GET "/api/parts") ≠ "GET"
                 ∨ strip_fragment (url (GET "/api/parts")) ∉ PRECACHE).
  { right. cbn. intros H. apply elem_of_cons in H as [H|H]; [discriminate|].
    apply list_elem_of_singleton in H. discriminate. }
  split; [exact Hreq|]. cbv zeta.
  destruct (only_precached_is_served_from_cache online
              [ (online, GET "/api/parts"); (offline, GET "/");
                (offline, GET "/api/parts") ] (GET "/api/parts") Hreq)
    as [Hanswers Hcalls].
  split; [reflexivity|]. split; [exact Hanswers|exact Hcalls].
Defined.

(** A request for "/" with a fragment is a request for the precached "/": it
    is answered from the cache. *)
Lemma fragment_is_left_out_of_the_match :
  fetch_handler offline (GET "/#top") (after_install online [])
  = (Some {| status := 200; body := "/" |}, after_install online [],
     [CachesMatch (GET "/#top")]).
Proof. reflexivity. Qed.

(** X4.  Installing again over what an earlier install left gives the storage
    the later install alone would have given when the later install resolves,
    and keeps the earlier storage untouched when it rejects; whether it
    resolves depends on the network only. *)
Theorem reinstall_last_success_wins (net1 net2 : Network) (s : CacheStorage) :
  (install_handler net2 (after_install net1 s)).1.1 = (install_handler net2 s).1.1
  ∧ after_install net2 (after_install net1 s)
    = match (install_handler net2 s).1.1 with
      | Some _ => after_install net2 s
      | None => after_install net1 s
      end.
Proof.
  pose proof (after_install_opens net1 s) as Hopen1.
  apply (caches_open_existing CACHE_NAME) in Hopen1.
  unfold after_install in *. rewrite !(install_handler_unfold net2).
  rewrite Hopen1. clear Hopen1.
  destruct (fetch_all net2 PRECACHE) as [e2|] eqn:H2; cbn [fst snd]; [|done].
  split; [done|].
  rewrite install_handler_unfold.
  destruct (fetch_all net1 PRECACHE) as [e1|] eqn:H1; cbn [snd].
  - rewrite update_cache_twice. apply update_cache_ext. intros c. cbn.
    apply put_all_absorbs.
    destruct (fetch_all_Some _ _ _ H1) as [-> _].
    by destruct (fetch_all_Some _ _ _ H2) as [-> _].
  - done.
Qed.

(** A second release replaces both entries of the first; an install that
    fails while the network is down leaves the first release in place. *)
Lemma reinstall_last_success_wins_witness :
  cached (after_install second_release (after_install online [])) "static-v1" "/"
  = Some {| status := 200; body := "v2:/" |}
  ∧ after_install second_release (after_install online [])
    = after_install second_release []
  ∧ after_install offline (after_install online []) = after_install online [].
Proof.
  destruct (reinstall_last_success_wins online second_release []) as [_ Hnew].
  destruct (reinstall_last_success_wins online offline []) as [_ Hdown].
  split; [reflexivity|]. split; [exact Hnew|exact Hdown].
Defined.

End WorkerEventsFacts.

(** ** Session slice *)

Module SessionSliceFacts.
Import SessionSlice.

Lemma reducer_cases state action :
  reducer state action
  = match action with
    | setSession payload => payload
    | clearSession => initialState
    | other _ => state
    end.
Proof. destruct action as [[tok usr]| |ty]; done. Qed.

Lemma dispatch_all_from state actions :
  dispatch_all state actions = state
  ∨ dispatch_all state actions = initialState
  ∨ ∃ payload, setSession payload ∈ actions ∧ dispatch_all state actions = payload.
Proof.
  revert state. induction actions as [|a actions IH]; intros state; [by left|].
  unfold dispatch_all in *. cbn [foldl].
  destruct (IH (reducer state a)) as [Hsame|[Hinit|(p & Hp & Hlast)]].
  - rewrite Hsame, reducer_cases. destruct a as [payload| |ty].
    + right. right. exists payload. split; [apply list_elem_of_here|done].
    + right. by left.
    + by left.
  - right. by left.
  - right. right. exists p. split; [by apply list_elem_of_further|done].
Qed.

(** X5.  Whatever actions the store dispatches, the session is either the
    initial one (no token, no user name) or exactly the payload of one of the
    dispatched [setSession] actions: the token and the user name always come
    from the same payload. *)
Theorem session_is_initial_or_a_payload (actions : list Action) :
  dispatch_all initialState actions = initialState
  ∨ ∃ payload, setSession payload ∈ actions
               ∧ dispatch_all initialState actions = payload.
Proof.
  destruct (dispatch_all_from initialState actions) as [H|[H|H]]; auto.
Qed.

Lemma dispatch_all_without_setSession actions :
  (∀ payload, setSession payload ∉ actions) →
  dispatch_all initialState actions = initialState.
Proof.
  induction actions as [|a actions IH]; intros Hno; [done|].
  unfold dispatch_all in *. cbn [foldl]. rewrite reducer_cases.
  destruct a as [payload| |ty].
  - destruct (Hno payload). apply list_elem_of_here.
  - apply IH. intros p Hp. apply (Hno p). by apply list_elem_of_further.
  - apply IH. intros p Hp. apply (Hno p). by apply list_elem_of_further.
Qed.

(** X6.  After [clearSession] the session has no token and no user name, and
    it stays so through every later action until a [setSession] is
    dispatched, whatever the session was before. *)
Theorem cleared_session_stays_cleared (state : SessionState)
    (before later : list Action) :
  (∀ payload, setSession payload ∉ later) →
  dispatch_all state (before ++ clearSession :: later) = initialState
  ∧ token (dispatch_all state (before ++ clearSession :: later)) = None.
Proof.
  intros Hno.
  assert (H : dispatch_all state (before ++ clearSession :: later) = initialState).
  { unfold dispatch_all. rewrite foldl_app. cbn [foldl]. rewrite reducer_cases.
    by apply dispatch_all_without_setSession. }
  by rewrite H.
Qed.

(** A signed-in user signs out; actions of other slices follow. *)
Lemma cleared_session_stays_cleared_witness :
  (∀ payload, setSession payload ∉ [other "parts/loaded"; clearSession])
  ∧ dispatch_all initialState
      ([setSession signed_in; other "parts/loaded"]
       ++ clearSession :: [other "parts/loaded"; clearSession])
    = initialState.
Proof.
  assert (Hno : ∀ payload, setSession payload ∉ [other "parts/loaded"; clearSession]).
  { intros payload H. apply elem_of_cons in H as [H|H]; [discriminate|].
    apply list_elem_of_singleton in H. discriminate. }
  split; [exact Hno|].
  exact (proj1 (cleared_session_stays_cleared initialState
                  [setSession signed_in; other "parts/loaded"] _ Hno)).
Defined.

End SessionSliceFacts.

(** ** Navigation bar *)

Module AppLayoutFacts.
Import AppLayout.

Lemma handle_keeps_in_step e st :
  value st = pathname st →
  value (handle e st) = pathname (handle e st)
  ∧ pathname (handle e st)
    = match e with Tapped t => tab_value t | LocationChanged p => p end.
Proof.
  intros Hst. destruct e as [t|p]; cbn [handle]; unfold run_effect, navigate, setValue;
    cbn [pathname value]; case_decide; cbn [pathname value] in *;
    split; congruence.
Qed.

Lemma handle_all_snoc es e st :
  handle_all (es ++ [e]) st = handle e (handle_all es st).
Proof. unfold handle_all. by rewrite foldl_app. Qed.

Lemma selected_of_tab_value t st : value st = tab_value t → selected st = [t].
Proof.
  intros Hv. unfold selected, tabs. rewrite !filter_cons, filter_nil, Hv.
  destruct t; repeat case_decide; done.
Qed.

Lemma selected_at_most_one st : length (selected st) ≤ 1.
Proof.
  unfold selected, tabs. rewrite !filter_cons, filter_nil.
  repeat case_decide; cbn [tab_value length] in *; try lia; congruence.
Qed.

Lemma page_at_tab t : is_Some (page_at (tab_value t)).
Proof. destruct t; by eexists. Qed.

(** X7.  However the location got to where it is, through taps on the bar or
    otherwise, once the effect has run the bar's value is the location's
    pathname: it is the path of the last event, the bar shows at most one tab
    as selected, and after a tap it shows the tapped tab, at a path the route
    table has a page for. *)
Theorem bar_follows_location (p0 : string) (events : list LayoutEvent) :
  let st := handle_all events (mount p0) in
  value st = pathname st
  ∧ pathname st = match last events with
                  | Some (Tapped t) => tab_value t
                  | Some (LocationChanged p) => p
                  | None => p0
                  end
  ∧ length (selected st) ≤ 1
  ∧ (∀ t, last events = Some (Tapped t) →
          selected st = [t] ∧ is_Some (page_at (pathname st))).
Proof.
  cbv zeta.
  assert (Hsync : value (handle_all events (mount p0))
                  = pathname (handle_all events (mount p0))
                  ∧ pathname (handle_all events (mount p0))
                    = match last events with
                      | Some (Tapped t) => tab_value t
                      | Some (LocationChanged p) => p
                      | None => p0
                      end).
  { induction events as [|e events IH] using rev_ind; [done|].
    rewrite handle_all_snoc, last_snoc.
    destruct (handle_keeps_in_step e _ (proj1 IH)) as [Hv Hp].
    split; [done|]. rewrite Hp. by destruct e. }
  destruct Hsync as [Hv Hp]. split_and!; [done|done|apply selected_at_most_one|].
  intros t Hlast. rewrite Hlast in Hp. split.
  - apply selected_of_tab_value. congruence.
  - rewrite Hp. apply page_at_tab.
Qed.

(** Opened at an unknown path, then the back button and a tap on the stock
    tab: the bar shows the stock tab, and the parts page is mounted there. *)
Lemma bar_follows_location_witness :
  let st := handle_all [LocationChanged "/tasks"; Tapped Stock] (mount "/unknown") in
  st = {| pathname := "/parts"; value := "/parts" |}
  ∧ selected st = [Stock]
  ∧ page_at (pathname st) = Some Router.PartsPage
  ∧ selected (mount "/unknown") = [].
Proof.
  cbv zeta.
  destruct (bar_follows_location "/unknown" [LocationChanged "/tasks"; Tapped Stock])
    as (_ & _ & _ & Htap).
  destruct (Htap Stock eq_refl) as [Hsel _].
  split; [reflexivity|]. split; [exact Hsel|]. split; reflexivity.
Defined.

End AppLayoutFacts.

(** ** Parts page *)

Module PartsPageFacts.
Import PartsService PartsPage.

Lemma or_else_nonempty x fallback : fallback ≠ "" → or_else x fallback ≠ "".
Proof. intros Hf. by destruct x as [[|c rest]|]. Qed.

(** X8.  The parts page shows one row per part of the answer to the query, in
    the order of the answer, keyed by the part's id and labelled with its name
    and its SKU in brackets, and no row while there is no answer.  Against a
    server that honours the page size it never shows more than fifty rows.
    The refresh button and the spinner always carry a label that is not
    empty, whatever the translations give. *)
Theorem parts_page_rows (t : Translate) (server : Server) (isLoading : bool) :
  honours_page_size server →
  let view := render t (queryFn server).2 isLoading in
  rows view = default [] ((λ d, row_of t <$> items d) <$> server first_page)
  ∧ key <$> rows view = default [] ((λ d, id <$> items d) <$> server first_page)
  ∧ (∀ i r, rows view !! i = Some r →
            ∃ d part, server first_page = Some d ∧ items d !! i = Some part
                      ∧ key r = id part
                      ∧ primary r = (name part ++ " (" ++ sku part ++ ")")%string)
  ∧ length (rows view) ≤ 50
  ∧ refresh_label view ≠ ""
  ∧ (if isLoading then ∃ l, spinner_label view = Some l ∧ l ≠ ""
     else spinner_label view = None).
Proof.
  intros Hserver. cbv zeta. rewrite PartsServiceFacts.queryFn_returns.
  unfold render. cbn [rows refresh_label spinner_label].
  split_and!.
  - by destruct (server first_page).
  - destruct (server first_page) as [d|]; [|done]. cbn.
    rewrite <- list_fmap_compose. by apply list_fmap_ext.
  - intros i r Hr. destruct (server first_page) as [d|] eqn:Hd; [|done].
    apply list_lookup_fmap_Some in Hr as (part & -> & Hpart).
    by exists d, part.
  - destruct (server first_page) as [d|] eqn:Hd; [|cbn; lia].
    rewrite length_fmap. specialize (Hserver first_page d 50%Z Hd eq_refl). lia.
  - by apply or_else_nonempty.
  - destruct isLoading; [|done]. eexists. split; [done|]. by apply or_else_nonempty.
Qed.

(** Against the backend with sixty parts and without translations, the page
    shows fifty rows, the first one for part 1, and an English label on the
    refresh button. *)
Lemma parts_page_rows_witness :
  honours_page_size (backend sixty_parts)
  ∧ let view := render untranslated (queryFn (backend sixty_parts)).2 true in
    length (rows view) = 50
    ∧ head (rows view)
      = Some {| key := 1; primary := "part (SKU)"; secondary := None |}
    ∧ length (rows view) ≤ 50
    ∧ refresh_label view = "Refresh"
    ∧ spinner_label view = Some "Loading".
Proof.
  split; [apply PartsServiceFacts.backend_honours_page_size|]. cbv zeta.
  destruct (parts_page_rows untranslated (backend sixty_parts) true
              (PartsServiceFacts.backend_honours_page_size sixty_parts))
    as (_ & _ & _ & Hbound & _).
  split; [reflexivity|]. split; [reflexivity|]. split; [exact Hbound|].
  split; reflexivity.
Defined.

End PartsPageFacts.
